(** * filetrack: the change-detection and history engine of the file
      integrity tracker ([src/filetrack.py])

    The development embeds the engine of [filetrack.py] shallowly:
    - [SHA256]: the digest [hashlib.sha256] computes (FIPS 180-4), on 32-bit
      words held in [Z] with the wrap-around written out;
    - [OsPath]: the pieces of [os.path] and [str] the path filter uses
      (POSIX flavour: the separator is ["/"]);
    - the engine itself: [is_valid_file], [calculate_hash],
      [scan_initial_files], [on_created], [on_modified], the start-up part
      of [start_monitoring], and of [format_display] the order of its table
      and its exception behaviour, over the process-wide dictionary
      [file_data] (a [gmap string TrackedFile]).

    Python exceptions are results ([Raise e]); what the program reads from
    its surroundings (file contents, the wall clock, the login name) comes
    in through an [Env] record. *)

From Stdlib Require Import ZArith Ascii String List Bool Lia.
From Stdlib Require Import Init.Byte Sorted.
From stdpp Require Import gmap strings list fin_maps.

(* ===================================================================== *)
(** * SHA-256, as [hashlib.sha256] computes it                            *)
(* ===================================================================== *)

Module SHA256.
Local Open Scope Z_scope.

(** 32-bit words are integers in [0, 2^32); every operation that can leave
    that range is reduced explicitly. *)
Definition wrap32 (x : Z) : Z := x mod 2 ^ 32.
Definition add32 (x y : Z) : Z := wrap32 (x + y).
Definition not32 (x : Z) : Z := Z.lxor x 0xffffffff.
Definition rotr (n x : Z) : Z :=
  Z.lor (Z.shiftr x n) (wrap32 (Z.shiftl x (32 - n))).
Definition shr (n x : Z) : Z := Z.shiftr x n.

Definition Ch (x y z : Z) : Z := Z.lxor (Z.land x y) (Z.land (not32 x) z).
Definition Maj (x y z : Z) : Z :=
  Z.lxor (Z.lxor (Z.land x y) (Z.land x z)) (Z.land y z).
Definition Sigma0 (x : Z) : Z := Z.lxor (Z.lxor (rotr 2 x) (rotr 13 x)) (rotr 22 x).
Definition Sigma1 (x : Z) : Z := Z.lxor (Z.lxor (rotr 6 x) (rotr 11 x)) (rotr 25 x).
Definition sigma0 (x : Z) : Z := Z.lxor (Z.lxor (rotr 7 x) (rotr 18 x)) (shr 3 x).
Definition sigma1 (x : Z) : Z := Z.lxor (Z.lxor (rotr 17 x) (rotr 19 x)) (shr 10 x).

(** The round constants are the first 32 bits of the fractional parts of
    the cube roots of the first 64 primes, the initial state those of the
    square roots of the first 8. *)
Definition is_prime (n : Z) : bool :=
  forallb (fun d => negb (n mod d =? 0)) (map Z.of_nat (seq 2 (Z.to_nat n - 2))).

Definition primes : list Z := List.filter is_prime (map Z.of_nat (seq 2 310)).

(** [cube_root bits n 0]: the largest [r] below [2 ^ bits] with [r ^ 3 <= n]. *)
Fixpoint cube_root (bits : nat) (n r : Z) : Z :=
  match bits with
  | O => r
  | S b =>
      let r' := r + 2 ^ Z.of_nat b in
      cube_root b n (if r' * r' * r' <=? n then r' else r)
  end.

Definition K : list Z :=
  Eval vm_compute in map (fun p => wrap32 (cube_root 36 (p * 2 ^ 96) 0)) primes.

Definition H0 : list Z :=
  Eval vm_compute in map (fun p => wrap32 (Z.sqrt (p * 2 ^ 64))) (firstn 8 primes).

Definition byte_val (b : byte) : Z := Z.of_N (Byte.to_N b).
Definition byte_of (x : Z) : byte :=
  match Byte.of_N (Z.to_N (x mod 256)) with
  | Some b => b
  | None => x00
  end.

(** Big-endian encoding of [x] on [n] bytes. *)
Fixpoint be_bytes (n : nat) (x : Z) : list byte :=
  match n with
  | O => []
  | S k => byte_of (Z.shiftr x (8 * Z.of_nat k)) :: be_bytes k x
  end.

(** Padding: a [0x80] byte, zero bytes up to 56 modulo 64, then the length
    of the message in bits on 64 bits. *)
Definition pad (msg : list byte) : list byte :=
  let len := Z.of_nat (length msg) in
  msg ++ [x80] ++ repeat x00 (Z.to_nat ((55 - len) mod 64))
      ++ be_bytes 8 (8 * len).

Fixpoint words_of (bs : list byte) : list Z :=
  match bs with
  | b3 :: b2 :: b1 :: b0 :: rest =>
      (Z.shiftl (byte_val b3) 24 + Z.shiftl (byte_val b2) 16
         + Z.shiftl (byte_val b1) 8 + byte_val b0) :: words_of rest
  | _ => []
  end.

(** The message schedule: [extend n w] appends [n] words to [w], each from
    the words 2, 7, 15 and 16 places before it. *)
Fixpoint extend (n : nat) (w : list Z) : list Z :=
  match n with
  | O => w
  | S k =>
      let t := length w in
      let at_back i := nth (t - i) w 0 in
      extend k (w ++ [add32 (add32 (sigma1 (at_back 2%nat)) (at_back 7%nat))
                            (add32 (sigma0 (at_back 15%nat)) (at_back 16%nat))])
  end.

Record regs := Regs { ra : Z; rb : Z; rc : Z; rd : Z; re : Z; rf : Z; rg : Z; rh : Z }.

Definition round (s : regs) (kw : Z * Z) : regs :=
  let '(k, w) := kw in
  let t1 := add32 (add32 (add32 (rh s) (Sigma1 (re s))) (Ch (re s) (rf s) (rg s)))
                  (add32 k w) in
  let t2 := add32 (Sigma0 (ra s)) (Maj (ra s) (rb s) (rc s)) in
  Regs (add32 t1 t2) (ra s) (rb s) (rc s) (add32 (rd s) t1) (re s) (rf s) (rg s).

Definition regs_of (h : list Z) : regs :=
  Regs (nth 0 h 0) (nth 1 h 0) (nth 2 h 0) (nth 3 h 0)
       (nth 4 h 0) (nth 5 h 0) (nth 6 h 0) (nth 7 h 0).
Definition list_of (s : regs) : list Z :=
  [ra s; rb s; rc s; rd s; re s; rf s; rg s; rh s].

Definition compress (h : list Z) (block : list byte) : list Z :=
  let w := extend 48 (words_of block) in
  let s := fold_left round (combine K w) (regs_of h) in
  map (fun p => add32 (fst p) (snd p)) (combine h (list_of s)).

Fixpoint blocks (n : nat) (h : list Z) (bs : list byte) : list Z :=
  match n with
  | O => h
  | S k => blocks k (compress h (firstn 64 bs)) (skipn 64 bs)
  end.

Definition digest (msg : list byte) : list byte :=
  let p := pad msg in
  flat_map (be_bytes 4) (blocks (length p / 64) H0 p).

Definition hex_digit (x : Z) : ascii :=
  ascii_of_N (Z.to_N (if x <? 10 then 48 + x else 87 + x)).

Fixpoint hex (bs : list byte) : string :=
  match bs with
  | [] => EmptyString
  | b :: rest =>
      String (hex_digit (byte_val b / 16))
        (String (hex_digit (byte_val b mod 16)) (hex rest))
  end.

(** A [hashlib] hash object: what matters of its state is the bytes fed to
    it so far; [update] appends, [hexdigest] digests the whole. *)
Definition hasher := list byte.
Definition new : hasher := [].
Definition update (h : hasher) (chunk : list byte) : hasher := h ++ chunk.
Definition hexdigest (h : hasher) : string := hex (digest h).

End SHA256.

(* ===================================================================== *)
(** * The parts of [str] and [os.path] the engine uses                     *)
(* ===================================================================== *)

Module OsPath.
Local Open Scope string_scope.

(** [s.startswith(pre)]. *)
Definition startswith (s pre : string) : bool := String.prefix pre s.

(** [s.endswith(suf)]: one of the tails of [s] is [suf]. *)
Fixpoint endswith (s suf : string) : bool :=
  String.eqb s suf ||
  match s with
  | EmptyString => false
  | String _ rest => endswith rest suf
  end.

Definition sep : ascii := "/"%char.

(** [after_last_sep cand p]: what follows the last separator of [p], or
    [cand] when [p] has none. *)
Fixpoint after_last_sep (cand p : string) : string :=
  match p with
  | EmptyString => cand
  | String c rest =>
      if Ascii.eqb c sep then after_last_sep rest rest
      else after_last_sep cand rest
  end.

(** [os.path.basename(p)]: [p[p.rfind("/") + 1:]]. *)
Definition basename (p : string) : string := after_last_sep p p.

(** [os.path.join(a, b)]. *)
Definition join (a b : string) : string :=
  if startswith b "/" then b
  else if String.eqb a "" || endswith a "/" then a ++ b
  else a ++ "/" ++ b.

End OsPath.

(* ===================================================================== *)
(** * The engine                                                          *)
(* ===================================================================== *)

(** ** Exceptions and results *)

(** The exception classes that can reach the engine: the [OSError] family
    raised by [open] and [read], and the [TypeError] of a [str + None]. *)
Inductive exn :=
  | FileNotFoundError
  | PermissionError
  | IsADirectoryError
  | OSError (errno : Z)
  | TypeError.

Inductive result (A : Type) :=
  | Return (a : A)
  | Raise (e : exn).
Arguments Return {A} a.
Arguments Raise {A} e.

#[global] Instance exn_eq_dec : EqDecision exn.
Proof. solve_decision. Defined.

(** ** What the process observes *)

(** Reading a file to its end either yields its bytes or raises. *)
Inductive file_read :=
  | Content (bytes : list byte)
  | Fails (e : exn).

Record Env := {
  open_rb : string -> file_read;   (* [open(path, "rb")] and the reads *)
  now : string;                    (* [datetime.now().strftime("%Y-%m-%d %H:%M:%S")] *)
  getuser : string                 (* [getpass.getuser()] *)
}.

(** A watchdog event, as far as the handlers look at it. *)
Record Event := { is_directory : bool; src_path : string }.

(** ** The data model *)

Inductive Status := unchanged | created | modified | deleted.

#[global] Instance Status_eq_dec : EqDecision Status.
Proof. solve_decision. Defined.

(** One element of a ["history"] list. *)
Record HistoryEntry := {
  entry_timestamp : string;
  entry_hash : option string;
  entry_user : string;
  entry_status : Status
}.

(** One value of [file_data]. *)
Record TrackedFile := {
  timestamp : string;
  user : string;
  hash : option string;
  status : Status;
  history : list HistoryEntry
}.

(** ** Configuration *)

Definition IGNORED_EXTENSIONS : list string :=
  [".swp"; ".swo"; ".tmp"; ".~"; ".crdownload"; ".part"; ".goutputstream"]%string.

(** ** Path filter *)

Definition is_valid_file (file_path : string) : bool :=
  let base_name := OsPath.basename file_path in
  negb (OsPath.startswith base_name ".")
  && negb (existsb (fun ext => OsPath.endswith file_path ext) IGNORED_EXTENSIONS).

(** ** Fingerprint calculator *)

(** [while chunk := f.read(4096): hash_func.update(chunk)] on a file whose
    unread bytes are [f]. Every round but the last consumes at least one
    byte, so [S (length f)] rounds of fuel reach the end of the file. *)
Fixpoint read_chunks (fuel : nat) (f : list byte) (hash_func : SHA256.hasher)
  : SHA256.hasher :=
  match fuel with
  | O => hash_func
  | S fuel' =>
      match take 4096 f with
      | [] => hash_func
      | chunk => read_chunks fuel' (drop 4096 f) (SHA256.update hash_func chunk)
      end
  end.

Definition calculate_hash (w : Env) (file_path : string) : result (option string) :=
  if negb (is_valid_file file_path) then Return None
  else
    let hash_func := SHA256.new in
    match open_rb w file_path with
    | Content f =>
        Return (Some (SHA256.hexdigest (read_chunks (S (length f)) f hash_func)))
    | Fails FileNotFoundError => Return None
    | Fails e => Raise e
    end.

(** ** Presentation, as far as it can raise *)

(** [format_display] concatenates [entry["hash"]] to strings for every
    history entry of every tracked file; a [None] hash makes that a
    [TypeError]. What it prints is not modelled. *)
Definition format_display (file_data : gmap string TrackedFile) : result unit :=
  if existsb
       (fun kv => existsb (fun entry => bool_decide (entry_hash entry = None))
                          (history kv.2))
       (map_to_list file_data)
  then Raise TypeError
  else Return tt.

(** ** Tracking store entries *)

(** The value [scan_initial_files] and [on_created] store under a path:
    the live fields, and a one-entry history that repeats them; the status
    ([st]) is ["unchanged"] in the first and ["created"] in the second. *)
Definition fresh (timestamp user : string) (file_hash : option string) (st : Status)
  : TrackedFile :=
  {| timestamp := timestamp; user := user; hash := file_hash; status := st;
     history := [ {| entry_timestamp := timestamp; entry_hash := file_hash;
                     entry_user := user; entry_status := st |} ] |}.

(** ** Directory scanner *)

(** The inner loop of [scan_initial_files], over the [files] of one
    directory [root] of the walk. [obs file_path] is what the process
    observes while it handles [file_path]. An exception of
    [calculate_hash] ends the scan with the dictionary as filled so far. *)
Fixpoint scan_files (obs : string -> Env) (root : string) (files : list string)
    (file_data : gmap string TrackedFile) : gmap string TrackedFile * result unit :=
  match files with
  | [] => (file_data, Return tt)
  | file :: files' =>
      let file_path := OsPath.join root file in
      if is_valid_file file_path then
        match calculate_hash (obs file_path) file_path with
        | Raise e => (file_data, Raise e)
        | Return file_hash =>
            let timestamp := now (obs file_path) in
            let user := getuser (obs file_path) in
            scan_files obs root files'
              (<[file_path := fresh timestamp user file_hash unchanged]> file_data)
        end
      else scan_files obs root files' file_data
  end.

(** [scan_initial_files], over the [(root, files)] pairs [os.walk] yields. *)
Fixpoint scan_initial_files (obs : string -> Env) (walk : list (string * list string))
    (file_data : gmap string TrackedFile) : gmap string TrackedFile * result unit :=
  match walk with
  | [] => (file_data, Return tt)
  | (root, files) :: walk' =>
      match scan_files obs root files file_data with
      | (file_data', Return _) => scan_initial_files obs walk' file_data'
      | raised => raised
      end
  end.

(** ** Change detector *)

Definition on_created (w : Env) (event : Event) (file_data : gmap string TrackedFile)
  : gmap string TrackedFile * result unit :=
  if negb (is_directory event) && is_valid_file (src_path event) then
    let file_path := src_path event in
    match calculate_hash w file_path with
    | Raise e => (file_data, Raise e)
    | Return file_hash =>
        let timestamp := now w in
        let user := getuser w in
        let file_data' :=
          <[file_path := fresh timestamp user file_hash created]> file_data in
        (file_data', format_display file_data')
    end
  else (file_data, Return tt).

(** [d["history"].append(entry)]. *)
Definition history_append (d : TrackedFile) (entry : HistoryEntry) : TrackedFile :=
  {| timestamp := timestamp d; user := user d; hash := hash d; status := status d;
     history := history d ++ [entry] |}.

(** [d.update({"timestamp": .., "user": .., "hash": .., "status": ..})]. *)
Definition update_live (d : TrackedFile) (timestamp user : string)
    (new_hash : option string) (st : Status) : TrackedFile :=
  {| timestamp := timestamp; user := user; hash := new_hash; status := st;
     history := history d |}.

(** The entry [{"timestamp": d["timestamp"], "hash": old_hash,
    "user": d["user"], "status": st}], read off the live fields of [d]. *)
Definition stored_state (d : TrackedFile) (old_hash : option string) (st : Status)
  : HistoryEntry :=
  {| entry_timestamp := timestamp d; entry_hash := old_hash;
     entry_user := user d; entry_status := st |}.

Definition on_modified (w : Env) (event : Event) (file_data : gmap string TrackedFile)
  : gmap string TrackedFile * result unit :=
  if negb (is_directory event) && is_valid_file (src_path event) then
    let file_path := src_path event in
    match calculate_hash w file_path with
    | Raise e => (file_data, Raise e)
    | Return new_hash =>
        let timestamp := now w in
        let user := getuser w in
        let file_data' :=
          match file_data !! file_path with
          | Some d =>
              if bool_decide (hash d ≠ new_hash) then
                let old_hash := hash d in
                let d1 := history_append d (stored_state d old_hash modified) in
                let d2 := update_live d1 timestamp user new_hash modified in
                let d3 := history_append d2
                            {| entry_timestamp := timestamp; entry_hash := new_hash;
                               entry_user := user; entry_status := modified |} in
                <[file_path := d3]> file_data
              else file_data
          | None => file_data
          end in
        (file_data', format_display file_data')
    end
  else (file_data, Return tt).

(** The order in which [format_display] lists the files:
    [sorted(file_data.items(), key=lambda x: x[1]["timestamp"], reverse=True)],
    a stable sort with the latest timestamp first. [insert_recent x l] puts
    [x] into the sorted [l], after the items with a later timestamp and
    before all others. *)
Fixpoint insert_recent (x : string * TrackedFile) (l : list (string * TrackedFile))
  : list (string * TrackedFile) :=
  match l with
  | [] => [x]
  | y :: l' =>
      if String.ltb (timestamp x.2) (timestamp y.2) then y :: insert_recent x l'
      else x :: y :: l'
  end.

Definition sorted_files (items : list (string * TrackedFile))
  : list (string * TrackedFile) :=
  foldr insert_recent [] items.

(** ** Start-up *)

(** [start_monitoring], up to the point where the observer is started: the
    initial scan, then the first drawing of the table. An exception of
    either ends the process before any notification is watched for. *)
Definition start_monitoring (obs : string -> Env) (walk : list (string * list string))
    (file_data : gmap string TrackedFile) : gmap string TrackedFile * result unit :=
  match scan_initial_files obs walk file_data with
  | (file_data', Return _) => (file_data', format_display file_data')
  | raised => raised
  end.

(** ** Runs of the engine *)

Inductive operation :=
  | Seed (obs : string -> Env) (walk : list (string * list string))
  | CreateNotification (w : Env) (event : Event)
  | ModifyNotification (w : Env) (event : Event).

(** The dictionary an operation leaves behind, whether or not it raised. *)
Definition apply_op (file_data : gmap string TrackedFile) (op : operation)
  : gmap string TrackedFile :=
  match op with
  | Seed obs walk => (scan_initial_files obs walk file_data).1
  | CreateNotification w event => (on_created w event file_data).1
  | ModifyNotification w event => (on_modified w event file_data).1
  end.

(** [file_data = {}] at start-up, then the operations in order. *)
Definition run (ops : list operation) : gmap string TrackedFile :=
  foldl apply_op ∅ ops.

(** Timestamps are compared as Python compares the strings. *)
Definition ts_lt (t1 t2 : string) : Prop := String.ltb t1 t2 = true.
Definition ts_le (t1 t2 : string) : Prop := String.leb t1 t2 = true.

(* ===================================================================== *)
(** * Vocabulary of the properties                                        *)
(* ===================================================================== *)

Section PathVocabulary.
Local Open Scope string_scope.

(** No separator occurs in [s]. *)
Fixpoint sep_free (s : string) : Prop :=
  match s with
  | EmptyString => True
  | String c rest => c <> OsPath.sep /\ sep_free rest
  end.

(** [b] is the base name of [p]: [p] itself when it has no separator,
    otherwise what follows its last separator. *)
Definition base_name_of (p b : string) : Prop :=
  sep_free b /\ (p = b \/ exists d, p = d ++ String OsPath.sep b).

(** The base name of [p] starts with a dot. *)
Definition hidden (p : string) : Prop :=
  exists b rest, base_name_of p b /\ b = String "."%char rest.

(** [p] ends with one of the ignored extensions. *)
Definition ignored_suffix (p : string) : Prop :=
  exists ext pre, In ext IGNORED_EXTENSIONS /\ p = pre ++ ext.

End PathVocabulary.

(** What the calculator makes of reading a file it has decided to open. *)
Definition fingerprint_of_read (r : file_read) : result (option string) :=
  match r with
  | Content f => Return (Some (SHA256.hexdigest f))
  | Fails e => if decide (e = FileNotFoundError) then Return None else Raise e
  end.

(** "The calculator applies no filtering": two paths that read alike are
    fingerprinted alike. *)
Definition applies_no_filtering : Prop :=
  forall (w : Env) (p1 p2 : string),
    open_rb w p1 = open_rb w p2 -> calculate_hash w p1 = calculate_hash w p2.

(** "Every I/O failure yields null": whatever the read raises, the
    calculator returns [None]. *)
Definition recovers_every_failure : Prop :=
  forall (w : Env) (p : string) (e : exn),
    open_rb w p = Fails e -> calculate_hash w p = Return None.

(** ** Tracking store *)

(** What a modification at time [t] by [u] leaves under a path that held
    [d]: the live fields replaced, and two ["modified"] entries after the old
    history, the first with the state [d] had and the second with the new
    one. *)
Definition modification (d : TrackedFile) (t u : string) (new_hash : option string)
  : TrackedFile :=
  {| timestamp := t; user := u; hash := new_hash; status := modified;
     history :=
       history d ++
         [ {| entry_timestamp := timestamp d; entry_hash := hash d;
              entry_user := user d; entry_status := modified |};
           {| entry_timestamp := t; entry_hash := new_hash;
              entry_user := u; entry_status := modified |} ] |}.

(** [P] holds of every entry of the store. *)
Definition every_entry (P : TrackedFile -> Prop) (file_data : gmap string TrackedFile)
  : Prop :=
  map_Forall (fun _ d => P d) file_data.

(** [currentHash] is the hash of the last history entry. *)
Definition hash_is_last (d : TrackedFile) : Prop :=
  entry_hash <$> last (history d) = Some (hash d).

(** The history has an odd number of entries. *)
Definition odd_history (d : TrackedFile) : Prop :=
  Nat.odd (length (history d)) = true.

(** "Modification bracketing", for one notification: if it is a
    modification transition, the two entries it appends have strictly
    increasing timestamps and different hashes. *)
Definition strictly_bracketed (w : Env) (event : Event)
    (file_data : gmap string TrackedFile) : Prop :=
  forall (d : TrackedFile) (new_hash : option string),
    is_directory event = false ->
    is_valid_file (src_path event) = true ->
    file_data !! src_path event = Some d ->
    calculate_hash w (src_path event) = Return new_hash ->
    hash d <> new_hash ->
    exists (d' : TrackedFile) (e1 e2 : HistoryEntry),
      (on_modified w event file_data).1 !! src_path event = Some d' /\
      history d' = history d ++ [e1; e2] /\
      ts_lt (entry_timestamp e1) (entry_timestamp e2) /\
      entry_hash e1 <> entry_hash e2.

(** ** Concrete surroundings for the examples *)

(** A file system given by the outcome of reading each listed path; any
    other path does not exist. *)
Fixpoint disk (files : list (string * file_read)) (p : string) : file_read :=
  match files with
  | [] => Fails FileNotFoundError
  | (q, r) :: files' => if String.eqb q p then r else disk files' p
  end.

Definition text (s : string) : file_read := Content (list_byte_of_string s).

Definition at_time (t : string) (files : list (string * file_read)) : Env :=
  {| open_rb := disk files; now := t; getuser := "alice" |}.

Definition file_event (p : string) : Event :=
  {| is_directory := false; src_path := p |}.

(** The store after seeding a directory that holds [a.txt] with content
    ["hello"]. *)
Definition seeded_store : gmap string TrackedFile :=
  (scan_initial_files
     (fun _ => at_time "2024-01-01 00:00:00" [("./a.txt", text "hello")])
     [(".", ["a.txt"])] ∅).1.

Definition hello_seed : TrackedFile :=
  fresh "2024-01-01 00:00:00" "alice"
        (Some (SHA256.hexdigest (list_byte_of_string "hello"))) unchanged.

(** [" world"] has been appended to [a.txt], five seconds later. *)
Definition after_append : Env :=
  at_time "2024-01-01 00:00:05" [("./a.txt", text "hello world")].

(** The same, within the second of the seed. *)
Definition same_second : Env :=
  at_time "2024-01-01 00:00:00" [("./a.txt", text "hello world")].

(** [a.txt] is untouched, five seconds later. *)
Definition untouched : Env :=
  at_time "2024-01-01 00:00:05" [("./a.txt", text "hello")].

(** [a.txt] is gone, five seconds later. *)
Definition vanished : Env := at_time "2024-01-01 00:00:05" [].

(** The seed, then the modify notification for the appended [a.txt]. *)
Definition seed_then_modify : list operation :=
  [ Seed (fun _ => at_time "2024-01-01 00:00:00" [("./a.txt", text "hello")])
         [(".", ["a.txt"])];
    ModifyNotification after_append (file_event "./a.txt") ].

(** [a.txt] holds ["hello world"], ten seconds after the seed. *)
Definition untouched_later : Env :=
  at_time "2024-01-01 00:00:10" [("./a.txt", text "hello world")].

(** ** Shapes of entries and histories *)

(** The live fields of [d], as a history entry. *)
Definition live_entry (d : TrackedFile) : HistoryEntry :=
  {| entry_timestamp := timestamp d; entry_hash := hash d;
     entry_user := user d; entry_status := status d |}.

(** [e] with its status replaced by ["modified"]. *)
Definition retagged (e : HistoryEntry) : HistoryEntry :=
  {| entry_timestamp := entry_timestamp e; entry_hash := entry_hash e;
     entry_user := entry_user e; entry_status := modified |}.

(** A history is one seed or creation entry followed by pairs: the first of
    a pair repeats the entry before it under the tag ["modified"], the
    second is tagged ["modified"] too and has another hash. *)
Inductive bracketed : list HistoryEntry -> Prop :=
  | bracketed_first (e : HistoryEntry) :
      entry_status e = unchanged \/ entry_status e = created ->
      bracketed [e]
  | bracketed_pair (l : list HistoryEntry) (e pre post : HistoryEntry) :
      bracketed l ->
      last l = Some e ->
      pre = retagged e ->
      entry_status post = modified ->
      entry_hash post <> entry_hash pre ->
      bracketed (l ++ [pre; post]).

(** The status tells whether the entry was ever modified. *)
Definition status_fits_history (d : TrackedFile) : Prop :=
  match status d with
  | unchanged | created => length (history d) = 1
  | modified => 1 < length (history d)
  | deleted => False
  end.

(** Some history entry of some tracked file has no hash. *)
Definition has_null_hash (file_data : gmap string TrackedFile) : Prop :=
  exists (p : string) (d : TrackedFile) (e : HistoryEntry),
    file_data !! p = Some d /\ e ∈ history d /\ entry_hash e = None.

(** ** The initial scan, path by path *)

(** The paths [scan_initial_files] forms, in the order it forms them. *)
Definition walk_paths (walk : list (string * list string)) : list string :=
  flat_map (fun rf => map (OsPath.join rf.1) rf.2) walk.

(** The two nested loops of [scan_initial_files] as one loop over the
    joined paths. *)
Fixpoint scan_paths (obs : string -> Env) (paths : list string)
    (file_data : gmap string TrackedFile) : gmap string TrackedFile * result unit :=
  match paths with
  | [] => (file_data, Return tt)
  | file_path :: paths' =>
      if is_valid_file file_path then
        match calculate_hash (obs file_path) file_path with
        | Raise e => (file_data, Raise e)
        | Return file_hash =>
            scan_paths obs paths'
              (<[file_path := fresh (now (obs file_path)) (getuser (obs file_path))
                                file_hash unchanged]> file_data)
        end
      else scan_paths obs paths' file_data
  end.

(** A tree with a readable file, a hidden file, a temporary file and a
    file inside a hidden directory. *)
Definition small_tree : string -> Env :=
  fun _ => at_time "2024-01-01 00:00:00"
             [("./a.txt", text "hello"); ("./.env", text "secret");
              ("./b.tmp", text "scratch"); ("./.git/config", text "[core]")].

Definition small_walk : list (string * list string) :=
  [(".", ["a.txt"; ".env"; "b.tmp"]); ("./.git", ["config"])].

(** The same tree where [a.txt] cannot be read, or is a dangling link. *)
Definition locked_tree : string -> Env :=
  fun _ => at_time "2024-01-01 00:00:00"
             [("./a.txt", Fails PermissionError); ("./.git/config", text "[core]")].

Definition dangling_tree : string -> Env :=
  fun _ => at_time "2024-01-01 00:00:00"
             [("./a.txt", Fails FileNotFoundError); ("./.git/config", text "[core]")].

(** [a] is listed before [b] only if its timestamp is not earlier. *)
Definition not_earlier (a b : string * TrackedFile) : Prop :=
  ts_le (timestamp b.2) (timestamp a.2).

(** The characters of a lower-case hexadecimal numeral. *)
Definition is_hex_char (c : ascii) : bool :=
  existsb (Ascii.eqb c) (list_ascii_of_string "0123456789abcdef").

(** Two bundles of files with clashing timestamps, in dictionary order. *)
Definition four_items : list (string * TrackedFile) :=
  [ ("a", fresh "2024-01-01 00:00:02" "alice" None unchanged);
    ("b", fresh "2024-01-01 00:00:05" "alice" None unchanged);
    ("c", fresh "2024-01-01 00:00:02" "alice" None created);
    ("d", fresh "2024-01-01 00:00:05" "alice" None created) ].

(** "Every creation notification on a trackable, non-directory path
    (re)initializes the entry": afterwards the path holds an entry with
    status ["created"] and a history of exactly one entry. *)
Definition reinitializes_unconditionally : Prop :=
  forall (w : Env) (event : Event) (file_data : gmap string TrackedFile),
    is_directory event = false ->
    is_valid_file (src_path event) = true ->
    exists d : TrackedFile,
      (on_created w event file_data).1 !! src_path event = Some d /\
      status d = created /\
      length (history d) = 1.

(** [a.txt] is there but cannot be opened, five seconds after the seed. *)
Definition locked : Env :=
  at_time "2024-01-01 00:00:05" [("./a.txt", Fails PermissionError)].

(** The store after a series of modify notifications, whatever each of
    them returned or raised. *)
Definition after_modifications (file_data : gmap string TrackedFile)
    (notifications : list (Env * Event)) : gmap string TrackedFile :=
  foldl (fun fd n => (on_modified n.1 n.2 fd).1) file_data notifications.

(* ===================================================================== *)
(** * Checks of the digest against [hashlib]                              *)
(* ===================================================================== *)

Example sha256_empty :
  SHA256.hexdigest [] =
  "e3b0c44298fc1c149afbf4c8996fb92427ae41e4649b934ca495991b7852b855"%string.
Proof. vm_compute. reflexivity. Qed.

Example sha256_hello :
  SHA256.hexdigest (list_byte_of_string "hello") =
  "2cf24dba5fb0a30e26e83b2ac5b9e29e1b161e5c1fa7425e73043362938b9824"%string.
Proof. vm_compute. reflexivity. Qed.

Example sha256_hello_world :
  SHA256.hexdigest (list_byte_of_string "hello world") =
  "b94d27b9934d3e08a52e52d7da7dabfac484efe37a5380ee9088f7ace2efcde9"%string.
Proof. vm_compute. reflexivity. Qed.

Example sha256_two_blocks :
  SHA256.hexdigest (repeat "a"%byte 119) =
  "31eba51c313a5c08226adf18d4a359cfdfd8d2e816b13f4af952f7ea6584dcfb"%string.
Proof. vm_compute. reflexivity. Qed.

Example sha256_full_block :
  SHA256.hexdigest (repeat "a"%byte 64) =
  "ffe054fe7ae0cb6dc65c3af9b61d5209f439851db43d0ba5997337df154668eb"%string.
Proof. vm_compute. reflexivity. Qed.

(* ===================================================================== *)
(** * Strings and paths                                                   *)
(* ===================================================================== *)

Section PathFacts.
Local Open Scope string_scope.

Lemma append_nil_l (s : string) : "" ++ s = s.
Proof. reflexivity. Qed.

Lemma append_cons_l (c : ascii) (s1 s2 : string) :
  String c s1 ++ s2 = String c (s1 ++ s2).
Proof. reflexivity. Qed.

Ltac push_append := rewrite ?append_nil_l, ?append_cons_l in *.

Lemma endswith_spec (s suf : string) :
  OsPath.endswith s suf = true <-> exists pre, s = pre ++ suf.
Proof.
  induction s as [|c s IH]; cbn [OsPath.endswith].
  - rewrite orb_false_r, String.eqb_eq. split.
    + intros ->. exists "". reflexivity.
    + intros [pre E]. destruct pre; push_append; [congruence | discriminate].
  - rewrite orb_true_iff, String.eqb_eq, IH. split.
    + intros [<- | [pre ->]]; [exists "" | exists (String c pre)]; reflexivity.
    + intros [[|c' pre] E]; push_append.
      * left. exact E.
      * right. exists pre. congruence.
Qed.

Lemma startswith_dot (s : string) :
  OsPath.startswith s "." = true <-> exists rest, s = String "."%char rest.
Proof.
  unfold OsPath.startswith. destruct s as [|c s]; cbn [String.prefix].
  - split; [discriminate | intros [? ?]; discriminate].
  - destruct (ascii_dec "."%char c) as [<- | Hne].
    + split; [eauto | intros _; destruct s; reflexivity].
    + split; [discriminate | intros [rest E]; congruence].
Qed.

Lemma after_last_sep_free (p cand : string) :
  sep_free p -> OsPath.after_last_sep cand p = cand.
Proof.
  revert cand. induction p as [|c p IH]; intros cand Hp; cbn in *.
  - reflexivity.
  - destruct Hp as [Hc Hp]. apply Ascii.eqb_neq in Hc. rewrite Hc. auto.
Qed.

Lemma after_last_sep_split (d b cand : string) :
  sep_free b -> OsPath.after_last_sep cand (d ++ String OsPath.sep b) = b.
Proof.
  intros Hb. revert cand.
  induction d as [|c d IH]; intros cand; push_append; cbn [OsPath.after_last_sep].
  - rewrite Ascii.eqb_refl. apply after_last_sep_free, Hb.
  - destruct (Ascii.eqb c OsPath.sep); apply IH.
Qed.

Lemma after_last_sep_cases (p cand : string) :
  (sep_free p /\ OsPath.after_last_sep cand p = cand) \/
  (exists d b, p = d ++ String OsPath.sep b /\ sep_free b
               /\ OsPath.after_last_sep cand p = b).
Proof.
  revert cand. induction p as [|c p IH]; intros cand; cbn.
  - left. auto.
  - destruct (Ascii.eqb c OsPath.sep) eqn:Hc.
    + apply Ascii.eqb_eq in Hc. subst c. right.
      destruct (IH p) as [[Hp E] | (d & b & -> & Hb & E)].
      * exists "", p. auto.
      * exists (String OsPath.sep d), b. auto.
    + apply Ascii.eqb_neq in Hc.
      destruct (IH cand) as [[Hp E] | (d & b & -> & Hb & E)].
      * left. auto.
      * right. exists (String c d), b. auto.
Qed.

(** [os.path.basename] returns the base name, and nothing else is one. *)
Lemma basename_spec (p b : string) :
  OsPath.basename p = b <-> base_name_of p b.
Proof.
  unfold OsPath.basename, base_name_of. split.
  - intros <-. destruct (after_last_sep_cases p p) as [[Hp E] | (d & b & -> & Hb & E)].
    + rewrite E. auto.
    + rewrite E. eauto.
  - intros [Hb [-> | [d ->]]].
    + apply after_last_sep_free, Hb.
    + apply after_last_sep_split, Hb.
Qed.

Lemma hidden_spec (p : string) :
  OsPath.startswith (OsPath.basename p) "." = true <-> hidden p.
Proof.
  rewrite startswith_dot. unfold hidden. split.
  - intros [rest E]. exists (OsPath.basename p), rest. split; [|exact E].
    apply basename_spec. reflexivity.
  - intros (b & rest & Hb & ->). apply basename_spec in Hb. eauto.
Qed.

Lemma ignored_suffix_spec (p : string) :
  existsb (fun ext => OsPath.endswith p ext) IGNORED_EXTENSIONS = true
  <-> ignored_suffix p.
Proof.
  rewrite existsb_exists. unfold ignored_suffix. split.
  - intros (ext & Hin & He). apply endswith_spec in He. destruct He as [pre ->]. eauto.
  - intros (ext & pre & Hin & ->). exists ext. split; [exact Hin|].
    apply endswith_spec. eauto.
Qed.

End PathFacts.

(** C5. Under the default ignored-extension list, [is_valid_file] returns
    false exactly for the paths whose base name starts with a dot or that
    end with one of the ignored extensions, and true for every other path.
    It is a function of the path alone: it takes neither the environment
    nor the tracking store. *)
Theorem is_valid_file_correct (p : string) :
  (is_valid_file p = false <-> hidden p \/ ignored_suffix p) /\
  (is_valid_file p = true <-> ~ (hidden p \/ ignored_suffix p)).
Proof.
  assert (Hfalse : is_valid_file p = false <-> hidden p \/ ignored_suffix p).
  { unfold is_valid_file. cbv zeta.
    rewrite andb_false_iff, !negb_false_iff, hidden_spec, ignored_suffix_spec.
    reflexivity. }
  split; [exact Hfalse|].
  rewrite <- Hfalse. destruct (is_valid_file p); split; congruence.
Qed.

(* ===================================================================== *)
(** * The fingerprint calculator                                          *)
(* ===================================================================== *)

(** The chunked read feeds the hash object the whole file, in order. *)
Lemma read_chunks_all (fuel : nat) (f : list byte) (h : SHA256.hasher) :
  length f < fuel -> read_chunks fuel f h = h ++ f.
Proof.
  revert f h. induction fuel as [|fuel IH]; intros f h Hlen; [lia|].
  cbn [read_chunks].
  destruct f as [|b f].
  - rewrite take_nil. symmetry. apply app_nil_r.
  - destruct (take 4096 (b :: f)) as [|c chunk] eqn:Hchunk.
    + apply (f_equal length) in Hchunk. rewrite length_take in Hchunk.
      cbn [length] in Hchunk. lia.
    + rewrite <- Hchunk. unfold SHA256.update. rewrite IH.
      * rewrite <- app_assoc, take_drop. reflexivity.
      * rewrite length_drop. cbn [length] in *. lia.
Qed.

Lemma read_chunks_file (f : list byte) :
  read_chunks (S (length f)) f SHA256.new = f.
Proof. rewrite read_chunks_all by lia. reflexivity. Qed.

(** C6 (amended). [calculate_hash] applies the path filter itself: a path
    the filter rejects yields [None] whatever the file holds, and only for
    an accepted path does the result depend on the outcome of the read
    alone. *)
Theorem calculate_hash_filters (w : Env) (p : string) :
  calculate_hash w p =
  if is_valid_file p then fingerprint_of_read (open_rb w p) else Return None.
Proof.
  unfold calculate_hash, fingerprint_of_read.
  destruct (is_valid_file p); cbn [negb]; [|reflexivity].
  destruct (open_rb w p) as [f|e].
  - rewrite read_chunks_file. reflexivity.
  - destruct e; reflexivity.
Qed.

(** C6, as stated, fails: a hidden path and a plain path with the same
    readable content are fingerprinted differently. *)
Lemma applies_no_filtering_fails : ~ applies_no_filtering.
Proof.
  intros Hclaim.
  specialize (Hclaim (at_time "2024-01-01 00:00:00"
                        [(".env", text "hello"); ("a.txt", text "hello")])
                     ".env" "a.txt" eq_refl)%string.
  vm_compute in Hclaim. discriminate Hclaim.
Qed.

(** C7 (amended). When reading an accepted path fails, the calculator
    returns [None] only for [FileNotFoundError]; any other failure is
    raised to the caller. *)
Theorem calculate_hash_failure (w : Env) (p : string) (e : exn) :
  is_valid_file p = true ->
  open_rb w p = Fails e ->
  calculate_hash w p =
  if decide (e = FileNotFoundError) then Return None else Raise e.
Proof.
  intros Hvalid Hread.
  rewrite calculate_hash_filters, Hvalid, Hread. reflexivity.
Qed.

Lemma calculate_hash_failure_witness :
  calculate_hash (at_time "2024-01-01 00:00:00" [("a.txt", Fails PermissionError)])
                 "a.txt"
  = Raise PermissionError.
Proof.
  apply (calculate_hash_failure
           (at_time "2024-01-01 00:00:00" [("a.txt", Fails PermissionError)])
           "a.txt" PermissionError); reflexivity.
Defined.

(** C7, as stated, fails: a permission error on an accepted path is raised,
    not turned into [None]. *)
Lemma recovers_every_failure_fails : ~ recovers_every_failure.
Proof.
  intros Hclaim.
  specialize (Hclaim (at_time "2024-01-01 00:00:00" [("a.txt", Fails PermissionError)])
                     "a.txt" PermissionError eq_refl)%string.
  vm_compute in Hclaim. discriminate Hclaim.
Qed.

(* ===================================================================== *)
(** * The change detector, one notification at a time                     *)
(* ===================================================================== *)

Section Handlers.
Context (w : Env) (event : Event) (file_data : gmap string TrackedFile).

(** Events on directories and on filtered paths leave the store alone. *)
Lemma on_created_dropped :
  negb (is_directory event) && is_valid_file (src_path event) = false ->
  on_created w event file_data = (file_data, Return tt).
Proof. unfold on_created. intros ->. reflexivity. Qed.

Lemma on_modified_dropped :
  negb (is_directory event) && is_valid_file (src_path event) = false ->
  on_modified w event file_data = (file_data, Return tt).
Proof. unfold on_modified. intros ->. reflexivity. Qed.

(** An exception of the calculator leaves the store alone. *)
Lemma on_created_raises (e : exn) :
  calculate_hash w (src_path event) = Raise e -> (on_created w event file_data).1 = file_data.
Proof.
  unfold on_created. intros ->.
  destruct (negb _ && _); reflexivity.
Qed.

Lemma on_modified_raises (e : exn) :
  calculate_hash w (src_path event) = Raise e -> (on_modified w event file_data).1 = file_data.
Proof.
  unfold on_modified. intros ->.
  destruct (negb _ && _); reflexivity.
Qed.

Lemma on_created_store (file_hash : option string) :
  is_directory event = false ->
  is_valid_file (src_path event) = true ->
  calculate_hash w (src_path event) = Return file_hash ->
  (on_created w event file_data).1
  = <[src_path event := fresh (now w) (getuser w) file_hash created]> file_data.
Proof.
  unfold on_created. intros -> -> ->. reflexivity.
Qed.

(** The three in-place steps of [on_modified] add up to [modification]. *)
Lemma modification_steps (d : TrackedFile) (t u : string) (new_hash : option string) :
  history_append
    (update_live (history_append d (stored_state d (hash d) modified))
                 t u new_hash modified)
    {| entry_timestamp := t; entry_hash := new_hash;
       entry_user := u; entry_status := modified |}
  = modification d t u new_hash.
Proof.
  unfold history_append, update_live, stored_state, modification.
  cbn [timestamp user hash status history]. rewrite <- app_assoc. reflexivity.
Qed.

Lemma on_modified_changed (d : TrackedFile) (new_hash : option string) :
  is_directory event = false ->
  is_valid_file (src_path event) = true ->
  file_data !! src_path event = Some d ->
  calculate_hash w (src_path event) = Return new_hash ->
  hash d <> new_hash ->
  (on_modified w event file_data).1
  = <[src_path event := modification d (now w) (getuser w) new_hash]> file_data.
Proof.
  unfold on_modified. intros -> -> Hd -> Hne.
  cbn [negb andb fst]. rewrite Hd, bool_decide_eq_true_2 by exact Hne.
  cbv zeta. rewrite modification_steps. reflexivity.
Qed.

Lemma on_modified_same (d : TrackedFile) :
  file_data !! src_path event = Some d ->
  calculate_hash w (src_path event) = Return (hash d) ->
  (on_modified w event file_data).1 = file_data.
Proof.
  unfold on_modified. intros Hd ->.
  destruct (negb _ && _); [|reflexivity].
  cbn [fst]. rewrite Hd, bool_decide_eq_false_2 by auto. reflexivity.
Qed.

Lemma on_modified_untracked :
  file_data !! src_path event = None ->
  (on_modified w event file_data).1 = file_data.
Proof.
  unfold on_modified. intros Hd.
  destruct (negb _ && _); [|reflexivity].
  destruct (calculate_hash w (src_path event)); [|reflexivity].
  cbn [fst]. rewrite Hd. reflexivity.
Qed.

End Handlers.

Lemma seeded_store_lookup : seeded_store !! "./a.txt"%string = Some hello_seed.
Proof. vm_compute. reflexivity. Qed.

(** C1. A modify notification on a trackable, non-directory, tracked path
    whose recomputed fingerprint differs from the stored hash replaces the
    entry of that path, and nothing else: the history gains exactly two
    ["modified"] entries, the first with the previous hash, timestamp and
    user, the second with the new ones; the status becomes ["modified"] and
    the stored hash the new fingerprint. *)
Theorem on_modified_records_change (w : Env) (event : Event)
    (file_data : gmap string TrackedFile) (d : TrackedFile) (new_hash : option string) :
  is_directory event = false ->
  is_valid_file (src_path event) = true ->
  file_data !! src_path event = Some d ->
  calculate_hash w (src_path event) = Return new_hash ->
  hash d <> new_hash ->
  exists d' : TrackedFile,
    (on_modified w event file_data).1 = <[src_path event := d']> file_data /\
    history d' =
      history d ++
        [ {| entry_timestamp := timestamp d; entry_hash := hash d;
             entry_user := user d; entry_status := modified |};
          {| entry_timestamp := now w; entry_hash := new_hash;
             entry_user := getuser w; entry_status := modified |} ] /\
    status d' = modified /\
    hash d' = new_hash /\
    timestamp d' = now w /\
    user d' = getuser w.
Proof.
  intros Hdir Hvalid Hd Hcalc Hne.
  exists (modification d (now w) (getuser w) new_hash).
  split; [apply on_modified_changed; assumption|].
  repeat split.
Qed.

(** The scenario of the specification: one seed, one real modification. *)
Lemma on_modified_records_change_witness :
  exists d' : TrackedFile,
    (on_modified after_append (file_event "./a.txt") seeded_store).1 !! "./a.txt"%string
      = Some d' /\
    status d' = modified /\
    length (history d') = 3 /\
    entry_hash <$> drop 1 (history d') =
      [ Some "2cf24dba5fb0a30e26e83b2ac5b9e29e1b161e5c1fa7425e73043362938b9824"%string;
        Some "b94d27b9934d3e08a52e52d7da7dabfac484efe37a5380ee9088f7ace2efcde9"%string ].
Proof.
  destruct (on_modified_records_change after_append (file_event "./a.txt")
              seeded_store hello_seed
              (Some (SHA256.hexdigest (list_byte_of_string "hello world"))))
    as (d' & Hstore & Hhist & Hstatus & Hhash & _).
  - reflexivity.
  - reflexivity.
  - vm_compute. reflexivity.
  - vm_compute. reflexivity.
  - vm_compute. discriminate.
  - exists d'. split.
    + rewrite Hstore. apply lookup_insert_eq.
    + rewrite Hhist. split; [exact Hstatus|]. split; vm_compute; reflexivity.
Defined.

(** C2. A modify notification whose recomputed fingerprint equals the
    stored hash, or whose path is not in the store, leaves the store as it
    was: no entry appears, and every history and status is unchanged. *)
Theorem on_modified_noop (w : Env) (event : Event)
    (file_data : gmap string TrackedFile) :
  (file_data !! src_path event = None \/
   exists d : TrackedFile,
     file_data !! src_path event = Some d /\
     calculate_hash w (src_path event) = Return (hash d)) ->
  (on_modified w event file_data).1 = file_data.
Proof.
  intros [Hnone | (d & Hd & Hcalc)].
  - apply on_modified_untracked, Hnone.
  - eapply on_modified_same; eassumption.
Qed.

Lemma on_modified_noop_witness :
  (on_modified untouched (file_event "./a.txt") seeded_store).1 = seeded_store /\
  (on_modified after_append (file_event "./b.txt") seeded_store).1 = seeded_store.
Proof.
  split; apply on_modified_noop.
  - right. exists hello_seed. split; vm_compute; reflexivity.
  - left. vm_compute. reflexivity.
Defined.

(** C4 (amended). A creation notification on a trackable, non-directory
    path whose fingerprint computation returns (a digest or [None]) stores,
    whatever the store held under that path before, an entry with status
    ["created"], the fingerprint just computed, and a history of exactly
    one entry; every other path keeps its entry. *)
Theorem on_created_reinitializes (w : Env) (event : Event)
    (file_data : gmap string TrackedFile) (file_hash : option string) :
  is_directory event = false ->
  is_valid_file (src_path event) = true ->
  calculate_hash w (src_path event) = Return file_hash ->
  (on_created w event file_data).1 =
    <[src_path event :=
        {| timestamp := now w; user := getuser w; hash := file_hash;
           status := created;
           history := [ {| entry_timestamp := now w; entry_hash := file_hash;
                           entry_user := getuser w; entry_status := created |} ] |}]>
      file_data.
Proof. apply on_created_store. Qed.

(** A creation event on the already seeded [a.txt] discards the seed entry. *)
Lemma on_created_reinitializes_witness :
  (on_created after_append (file_event "./a.txt") seeded_store).1 !! "./a.txt"%string
  = Some (fresh "2024-01-01 00:00:05" "alice"
            (Some "b94d27b9934d3e08a52e52d7da7dabfac484efe37a5380ee9088f7ace2efcde9"%string)
            created).
Proof.
  rewrite (on_created_reinitializes after_append (file_event "./a.txt") seeded_store
             (Some (SHA256.hexdigest (list_byte_of_string "hello world")))).
  - rewrite lookup_insert_eq. vm_compute. reflexivity.
  - reflexivity.
  - reflexivity.
  - vm_compute. reflexivity.
Defined.

(** C4, as stated, fails: when the file cannot be opened the calculator
    raises before the assignment, so a creation notification for the
    already seeded [a.txt] leaves the seed entry, status ["unchanged"], in
    place. *)
Lemma reinitializes_unconditionally_fails : ~ reinitializes_unconditionally.
Proof.
  intros Hclaim.
  destruct (Hclaim locked (file_event "./a.txt") seeded_store eq_refl eq_refl)
    as (d & Hlook & Hstatus & _).
  vm_compute in Hlook. injection Hlook as <-. discriminate Hstatus.
Qed.

(** C8 (amended). The two entries a modification transition appends have
    different hashes; the first carries the timestamp the entry had and the
    second the time of the notification, so they are in order whenever the
    clock has not gone back since the entry was last written, but not
    strictly: both fall within the same second when the two readings do. *)
Theorem modification_bracketed (w : Env) (event : Event)
    (file_data : gmap string TrackedFile) (d : TrackedFile) (new_hash : option string) :
  is_directory event = false ->
  is_valid_file (src_path event) = true ->
  file_data !! src_path event = Some d ->
  calculate_hash w (src_path event) = Return new_hash ->
  hash d <> new_hash ->
  exists (d' : TrackedFile) (e1 e2 : HistoryEntry),
    (on_modified w event file_data).1 !! src_path event = Some d' /\
    history d' = history d ++ [e1; e2] /\
    entry_timestamp e1 = timestamp d /\
    entry_timestamp e2 = now w /\
    (ts_le (timestamp d) (now w) -> ts_le (entry_timestamp e1) (entry_timestamp e2)) /\
    entry_hash e1 <> entry_hash e2.
Proof.
  intros Hdir Hvalid Hd Hcalc Hne.
  eexists (modification d (now w) (getuser w) new_hash), _, _.
  split.
  - rewrite (on_modified_changed w event file_data d new_hash) by assumption.
    apply lookup_insert_eq.
  - cbn [modification history entry_timestamp entry_hash].
    repeat split; auto.
Qed.

(** A modification within the second of the seed: the two entries differ in
    hash and agree in timestamp. *)
Lemma modification_bracketed_witness :
  exists (d' : TrackedFile) (e1 e2 : HistoryEntry),
    (on_modified same_second (file_event "./a.txt") seeded_store).1 !! "./a.txt"%string
      = Some d' /\
    history d' = history hello_seed ++ [e1; e2] /\
    entry_timestamp e1 = entry_timestamp e2 /\
    entry_hash e1 <> entry_hash e2.
Proof.
  destruct (modification_bracketed same_second (file_event "./a.txt") seeded_store
              hello_seed (Some (SHA256.hexdigest (list_byte_of_string "hello world"))))
    as (d' & e1 & e2 & Hlook & Hhist & Ht1 & Ht2 & _ & Hne).
  - reflexivity.
  - reflexivity.
  - vm_compute. reflexivity.
  - vm_compute. reflexivity.
  - vm_compute. discriminate.
  - exists d', e1, e2. repeat split; try assumption.
    rewrite Ht1, Ht2. reflexivity.
Defined.

(** C8, as stated, fails: for a modification within the second of the
    previous update the two timestamps are equal. *)
Lemma strictly_bracketed_fails :
  ~ strictly_bracketed same_second (file_event "./a.txt") seeded_store.
Proof.
  intros Hclaim.
  destruct (Hclaim hello_seed (Some (SHA256.hexdigest (list_byte_of_string "hello world"))))
    as (d' & e1 & e2 & Hlook & Hhist & Hlt & _).
  - reflexivity.
  - reflexivity.
  - apply seeded_store_lookup.
  - vm_compute. reflexivity.
  - vm_compute. discriminate.
  - rewrite (on_modified_changed same_second (file_event "./a.txt") seeded_store
               hello_seed (Some (SHA256.hexdigest (list_byte_of_string "hello world"))))
      in Hlook.
    + rewrite lookup_insert_eq in Hlook. injection Hlook as <-.
      cbn [modification history] in Hhist.
      apply app_inv_head in Hhist. injection Hhist as <- <-.
      vm_compute in Hlt. discriminate Hlt.
    + reflexivity.
    + reflexivity.
    + apply seeded_store_lookup.
    + vm_compute. reflexivity.
    + vm_compute. discriminate.
Qed.

(* ===================================================================== *)
(** * Invariants of the tracking store                                    *)
(* ===================================================================== *)

(** A property of entries that holds of every freshly stored entry and that
    a modification keeps, holds of every entry of every store the engine
    reaches. *)
Section Preservation.
Variable P : TrackedFile -> Prop.
Hypothesis P_fresh : forall t u h st, P (fresh t u h st).
Hypothesis P_modification :
  forall d t u h, P d -> hash d <> h -> P (modification d t u h).

Local Abbreviation inv := (every_entry P).

Lemma inv_insert (p : string) (d : TrackedFile) (file_data : gmap string TrackedFile) :
  P d -> inv file_data -> inv (<[p := d]> file_data).
Proof. intros Hd Hinv. apply map_Forall_insert_2; assumption. Qed.

Lemma on_created_inv (w : Env) (event : Event) (file_data : gmap string TrackedFile) :
  inv file_data -> inv (on_created w event file_data).1.
Proof.
  intros Hinv. unfold on_created.
  destruct (negb _ && _); [|exact Hinv].
  destruct (calculate_hash w (src_path event)); [|exact Hinv].
  apply inv_insert; auto.
Qed.

Lemma on_modified_inv (w : Env) (event : Event) (file_data : gmap string TrackedFile) :
  inv file_data -> inv (on_modified w event file_data).1.
Proof.
  intros Hinv. unfold on_modified.
  destruct (negb _ && _); [|exact Hinv].
  destruct (calculate_hash w (src_path event)) as [new_hash|]; [|exact Hinv].
  cbn [fst]. destruct (file_data !! src_path event) as [d|] eqn:Hd; [|exact Hinv].
  case_bool_decide as Hne; [|exact Hinv].
  cbv zeta. rewrite modification_steps.
  apply inv_insert; [|exact Hinv].
  apply P_modification; [|exact Hne]. exact (Hinv _ _ Hd).
Qed.

Lemma scan_files_inv (obs : string -> Env) (root : string) (files : list string)
    (file_data : gmap string TrackedFile) :
  inv file_data -> inv (scan_files obs root files file_data).1.
Proof.
  revert file_data. induction files as [|file files IH]; intros file_data Hinv.
  - exact Hinv.
  - cbn [scan_files]. cbv zeta.
    destruct (is_valid_file (OsPath.join root file)); [|apply IH, Hinv].
    destruct (calculate_hash _ _); [|exact Hinv].
    apply IH, inv_insert; auto.
Qed.

Lemma scan_initial_files_inv (obs : string -> Env) (walk : list (string * list string))
    (file_data : gmap string TrackedFile) :
  inv file_data -> inv (scan_initial_files obs walk file_data).1.
Proof.
  revert file_data. induction walk as [|[root files] walk IH]; intros file_data Hinv.
  - exact Hinv.
  - cbn [scan_initial_files].
    pose proof (scan_files_inv obs root files file_data Hinv) as Hstep.
    destruct (scan_files obs root files file_data) as [file_data' [[]|e]].
    + apply IH, Hstep.
    + exact Hstep.
Qed.

Lemma apply_op_inv (op : operation) (file_data : gmap string TrackedFile) :
  inv file_data -> inv (apply_op file_data op).
Proof.
  destruct op; cbn [apply_op].
  - apply scan_initial_files_inv.
  - apply on_created_inv.
  - apply on_modified_inv.
Qed.

Lemma foldl_apply_op_inv (ops : list operation) (file_data : gmap string TrackedFile) :
  inv file_data -> inv (foldl apply_op file_data ops).
Proof.
  revert file_data. induction ops as [|op ops IH]; intros file_data Hinv.
  - exact Hinv.
  - cbn [foldl]. apply IH, apply_op_inv, Hinv.
Qed.

Lemma run_inv (ops : list operation) (p : string) (d : TrackedFile) :
  run ops !! p = Some d -> P d.
Proof.
  intros Hd.
  assert (Hempty : inv ∅) by apply map_Forall_empty.
  exact (foldl_apply_op_inv ops ∅ Hempty p d Hd).
Qed.

End Preservation.

Lemma hash_is_last_fresh (t u : string) (h : option string) (st : Status) :
  hash_is_last (fresh t u h st).
Proof. reflexivity. Qed.

Lemma hash_is_last_modification (d : TrackedFile) (t u : string) (h : option string) :
  hash_is_last (modification d t u h).
Proof.
  unfold hash_is_last, modification. cbn [history hash].
  change (history d ++ [?e1; ?e2]) with (history d ++ [e1] ++ [e2]).
  rewrite app_assoc, last_snoc. reflexivity.
Qed.

Lemma odd_history_fresh (t u : string) (h : option string) (st : Status) :
  odd_history (fresh t u h st).
Proof. reflexivity. Qed.

Lemma odd_history_modification (d : TrackedFile) (t u : string) (h : option string) :
  odd_history d -> odd_history (modification d t u h).
Proof.
  unfold odd_history, modification. cbn [history].
  rewrite length_app. cbn [length].
  replace (length (history d) + 2) with (S (S (length (history d)))) by lia.
  intros Hodd. rewrite Nat.odd_succ_succ. exact Hodd.
Qed.

(** C3. In every store reached from the empty one by seeds, create
    notifications and modify notifications, each entry's stored hash is the
    hash of the last entry of its history. *)
Theorem current_hash_is_last_history_hash (ops : list operation) (p : string)
    (d : TrackedFile) :
  run ops !! p = Some d ->
  entry_hash <$> last (history d) = Some (hash d).
Proof.
  apply (run_inv hash_is_last).
  - apply hash_is_last_fresh.
  - intros d0 t u h _ _. apply hash_is_last_modification.
Qed.

(** C9. In every store reached from the empty one by seeds, create
    notifications and modify notifications, each entry's history has an odd
    number of entries; in particular it is not empty. *)
Theorem history_length_odd (ops : list operation) (p : string) (d : TrackedFile) :
  run ops !! p = Some d ->
  Nat.Odd (length (history d)) /\ history d <> [].
Proof.
  intros Hd.
  assert (Hodd : odd_history d).
  { revert Hd. apply (run_inv odd_history).
    - apply odd_history_fresh.
    - intros d0 t u h Hd0 _. apply odd_history_modification, Hd0. }
  unfold odd_history in Hodd. split.
  - apply Nat.odd_spec, Hodd.
  - intros Hnil. rewrite Hnil in Hodd. discriminate Hodd.
Qed.

Lemma seed_then_modify_lookup :
  run seed_then_modify !! "./a.txt"%string
  = Some (modification hello_seed "2024-01-01 00:00:05" "alice"
            (Some "b94d27b9934d3e08a52e52d7da7dabfac484efe37a5380ee9088f7ace2efcde9"%string)).
Proof. vm_compute. reflexivity. Qed.

Lemma current_hash_is_last_history_hash_witness :
  entry_hash <$>
    last (history (modification hello_seed "2024-01-01 00:00:05" "alice"
            (Some "b94d27b9934d3e08a52e52d7da7dabfac484efe37a5380ee9088f7ace2efcde9"%string)))
  = Some (Some "b94d27b9934d3e08a52e52d7da7dabfac484efe37a5380ee9088f7ace2efcde9"%string).
Proof.
  apply (current_hash_is_last_history_hash seed_then_modify "./a.txt").
  vm_compute. reflexivity.
Defined.

Lemma history_length_odd_witness :
  Nat.Odd (length (history (modification hello_seed "2024-01-01 00:00:05" "alice"
            (Some "b94d27b9934d3e08a52e52d7da7dabfac484efe37a5380ee9088f7ace2efcde9"%string))))
  /\ run seed_then_modify !! "./a.txt"%string <> None.
Proof.
  split.
  - apply (history_length_odd seed_then_modify "./a.txt"). vm_compute. reflexivity.
  - vm_compute. discriminate.
Defined.

(** Once a [None] hash is in a history, drawing the table raises: the
    handler that recorded the vanished file ends in a [TypeError], with the
    store already updated. *)
Example vanished_display_raises :
  (on_modified vanished (file_event "./a.txt") seeded_store).2 = Raise TypeError.
Proof. vm_compute. reflexivity. Qed.

(* ===================================================================== *)
(** * More on the handlers                                                *)
(* ===================================================================== *)

Lemma calculate_hash_raises (w : Env) (p : string) (e : exn) :
  is_valid_file p = true ->
  open_rb w p = Fails e ->
  e <> FileNotFoundError ->
  calculate_hash w p = Raise e.
Proof.
  intros Hvalid Hread Hne. unfold calculate_hash.
  rewrite Hvalid, Hread. cbn [negb]. destruct e; congruence.
Qed.

Lemma guard_false (event : Event) :
  is_directory event = true \/ is_valid_file (src_path event) = false ->
  negb (is_directory event) && is_valid_file (src_path event) = false.
Proof. intros [-> | ->]; [reflexivity | apply andb_false_r]. Qed.

(** X1. Events on directories and on paths the filter rejects are dropped by
    both handlers: the store is untouched, nothing is read, nothing is
    drawn, nothing is raised. *)
Theorem filtered_events_ignored (w : Env) (event : Event)
    (file_data : gmap string TrackedFile) :
  is_directory event = true \/ is_valid_file (src_path event) = false ->
  on_created w event file_data = (file_data, Return tt) /\
  on_modified w event file_data = (file_data, Return tt).
Proof.
  intros Hdrop. apply guard_false in Hdrop.
  split; [apply on_created_dropped | apply on_modified_dropped]; exact Hdrop.
Qed.

(** A creation event for [b.tmp], and a modification event for a directory. *)
Lemma filtered_events_ignored_witness :
  (on_created after_append (file_event "./b.tmp") seeded_store
     = (seeded_store, Return tt) /\
   on_modified after_append (file_event "./b.tmp") seeded_store
     = (seeded_store, Return tt)) /\
  on_modified after_append {| is_directory := true; src_path := "./a.txt" |} seeded_store
    = (seeded_store, Return tt).
Proof.
  split.
  - apply (filtered_events_ignored after_append (file_event "./b.tmp") seeded_store).
    right. reflexivity.
  - apply (filtered_events_ignored after_append
             {| is_directory := true; src_path := "./a.txt" |} seeded_store).
    left. reflexivity.
Defined.

(** X2. When reading a trackable file fails with anything but
    [FileNotFoundError], both handlers end in that exception with the store
    as it was: the event leaves no trace. *)
Theorem unreadable_file_raises (w : Env) (event : Event)
    (file_data : gmap string TrackedFile) (e : exn) :
  is_directory event = false ->
  is_valid_file (src_path event) = true ->
  open_rb w (src_path event) = Fails e ->
  e <> FileNotFoundError ->
  on_created w event file_data = (file_data, Raise e) /\
  on_modified w event file_data = (file_data, Raise e).
Proof.
  intros Hdir Hvalid Hread Hne.
  pose proof (calculate_hash_raises w _ e Hvalid Hread Hne) as Hcalc.
  unfold on_created, on_modified. rewrite Hdir, Hvalid, Hcalc. split; reflexivity.
Qed.

Lemma unreadable_file_raises_witness :
  on_created (at_time "2024-01-01 00:00:05" [("./a.txt", Fails PermissionError)])
             (file_event "./a.txt") seeded_store
    = (seeded_store, Raise PermissionError) /\
  on_modified (at_time "2024-01-01 00:00:05" [("./a.txt", Fails PermissionError)])
              (file_event "./a.txt") seeded_store
    = (seeded_store, Raise PermissionError).
Proof.
  apply (unreadable_file_raises
           (at_time "2024-01-01 00:00:05" [("./a.txt", Fails PermissionError)])
           (file_event "./a.txt") seeded_store PermissionError).
  - reflexivity.
  - reflexivity.
  - reflexivity.
  - discriminate.
Defined.

Lemma on_created_lookup_ne (w : Env) (event : Event)
    (file_data : gmap string TrackedFile) (p : string) :
  p <> src_path event -> (on_created w event file_data).1 !! p = file_data !! p.
Proof.
  intros Hne. unfold on_created.
  destruct (negb _ && _); [|reflexivity].
  destruct (calculate_hash w (src_path event)); [|reflexivity].
  cbn [fst]. apply lookup_insert_ne. congruence.
Qed.

Lemma on_modified_lookup_ne (w : Env) (event : Event)
    (file_data : gmap string TrackedFile) (p : string) :
  p <> src_path event -> (on_modified w event file_data).1 !! p = file_data !! p.
Proof.
  intros Hne. unfold on_modified.
  destruct (negb _ && _); [|reflexivity].
  destruct (calculate_hash w (src_path event)); [|reflexivity].
  cbn [fst]. destruct (file_data !! src_path event); [|reflexivity].
  case_bool_decide; [|reflexivity].
  apply lookup_insert_ne. congruence.
Qed.

(** X3. A notification changes at most the entry of its own path. *)
Theorem handlers_touch_only_event_path (w : Env) (event : Event)
    (file_data : gmap string TrackedFile) (p : string) :
  p <> src_path event ->
  (on_created w event file_data).1 !! p = file_data !! p /\
  (on_modified w event file_data).1 !! p = file_data !! p.
Proof.
  intros Hne. split; [apply on_created_lookup_ne | apply on_modified_lookup_ne]; exact Hne.
Qed.

Lemma handlers_touch_only_event_path_witness :
  (on_created after_append (file_event "./b.txt") seeded_store).1 !! "./a.txt"%string
    = Some hello_seed /\
  (on_modified after_append (file_event "./b.txt") seeded_store).1 !! "./a.txt"%string
    = Some hello_seed.
Proof.
  rewrite <- seeded_store_lookup.
  apply (handlers_touch_only_event_path after_append (file_event "./b.txt")
           seeded_store "./a.txt").
  discriminate.
Defined.

(** What [on_modified] leaves in the store, case by case. *)
Lemma on_modified_store (w : Env) (event : Event) (file_data : gmap string TrackedFile) :
  (on_modified w event file_data).1 =
  if negb (is_directory event) && is_valid_file (src_path event) then
    match calculate_hash w (src_path event), file_data !! src_path event with
    | Return new_hash, Some d =>
        if bool_decide (hash d <> new_hash)
        then <[src_path event := modification d (now w) (getuser w) new_hash]> file_data
        else file_data
    | _, _ => file_data
    end
  else file_data.
Proof.
  unfold on_modified. destruct (negb _ && _); [|reflexivity].
  destruct (calculate_hash w (src_path event)); [|reflexivity].
  cbn [fst]. destruct (file_data !! src_path event); [|reflexivity].
  case_bool_decide; [|reflexivity].
  cbv zeta. rewrite modification_steps. reflexivity.
Qed.

Lemma on_created_store_cases (w : Env) (event : Event)
    (file_data : gmap string TrackedFile) :
  (on_created w event file_data).1 =
  if negb (is_directory event) && is_valid_file (src_path event) then
    match calculate_hash w (src_path event) with
    | Return file_hash =>
        <[src_path event := fresh (now w) (getuser w) file_hash created]> file_data
    | Raise _ => file_data
    end
  else file_data.
Proof.
  unfold on_created. destruct (negb _ && _); [|reflexivity].
  destruct (calculate_hash w (src_path event)); reflexivity.
Qed.

(** X4. A second modify notification for the same path, at whatever time, is a
    no-op on the store as long as the file reads as it did for the first:
    duplicate notifications add nothing. *)
Theorem on_modified_duplicate (w w' : Env) (event : Event)
    (file_data : gmap string TrackedFile) :
  calculate_hash w' (src_path event) = calculate_hash w (src_path event) ->
  (on_modified w' event (on_modified w event file_data).1).1
  = (on_modified w event file_data).1.
Proof.
  intros Hsame. rewrite (on_modified_store w event file_data).
  destruct (negb (is_directory event) && is_valid_file (src_path event)) eqn:Hguard.
  2: { rewrite on_modified_store, Hguard. reflexivity. }
  destruct (calculate_hash w (src_path event)) as [new_hash|e] eqn:Hcalc.
  2: { rewrite on_modified_store, Hguard, Hsame. reflexivity. }
  destruct (file_data !! src_path event) as [d|] eqn:Hd.
  2: { rewrite on_modified_store, Hguard, Hsame, Hd. reflexivity. }
  case_bool_decide as Hne.
  - rewrite on_modified_store, Hguard, Hsame, lookup_insert_eq.
    cbn [modification hash]. rewrite bool_decide_eq_false_2 by auto. reflexivity.
  - rewrite on_modified_store, Hguard, Hsame, Hd.
    rewrite bool_decide_eq_false_2 by (intros Hc; exact (Hc Hne)). reflexivity.
Qed.

(** The two notifications of one logical write: the second adds nothing. *)
Lemma on_modified_duplicate_witness :
  (on_modified untouched_later (file_event "./a.txt")
     (on_modified after_append (file_event "./a.txt") seeded_store).1).1
  = (on_modified after_append (file_event "./a.txt") seeded_store).1.
Proof.
  apply (on_modified_duplicate after_append untouched_later (file_event "./a.txt")
           seeded_store).
  vm_compute. reflexivity.
Defined.

(** X5. A modify notification that follows a create notification for the same
    path is a no-op on the store as long as the file reads as it did at
    creation. *)
Theorem on_modified_after_created (w w' : Env) (event : Event)
    (file_data : gmap string TrackedFile) :
  calculate_hash w' (src_path event) = calculate_hash w (src_path event) ->
  (on_modified w' event (on_created w event file_data).1).1
  = (on_created w event file_data).1.
Proof.
  intros Hsame. rewrite (on_created_store_cases w event file_data), on_modified_store.
  destruct (negb (is_directory event) && is_valid_file (src_path event)) eqn:Hguard.
  2: { reflexivity. }
  rewrite Hsame.
  destruct (calculate_hash w (src_path event)) as [file_hash|e] eqn:Hcalc.
  2: { reflexivity. }
  rewrite lookup_insert_eq. cbn [fresh hash].
  rewrite bool_decide_eq_false_2 by auto. reflexivity.
Qed.

Lemma on_modified_after_created_witness :
  (on_modified untouched_later (file_event "./a.txt")
     (on_created after_append (file_event "./a.txt") seeded_store).1).1
  = (on_created after_append (file_event "./a.txt") seeded_store).1.
Proof.
  apply (on_modified_after_created after_append untouched_later (file_event "./a.txt")
           seeded_store).
  vm_compute. reflexivity.
Defined.

(** X6. A modify notification never adds a path to the store and never rewrites
    a history: every tracked path keeps its old history as a prefix of the
    new one, which is longer by at most two entries. *)
Theorem on_modified_append_only (w : Env) (event : Event)
    (file_data : gmap string TrackedFile) (p : string) :
  match file_data !! p with
  | None => (on_modified w event file_data).1 !! p = None
  | Some d =>
      exists d' : TrackedFile,
        (on_modified w event file_data).1 !! p = Some d' /\
        history d `prefix_of` history d' /\
        length (history d') <= length (history d) + 2
  end.
Proof.
  assert (Hkeep : forall d, file_data !! p = Some d ->
            exists d', file_data !! p = Some d' /\ history d `prefix_of` history d' /\
                       length (history d') <= length (history d) + 2).
  { intros d Hd. exists d. split; [exact Hd|]. split; [reflexivity | lia]. }
  rewrite on_modified_store.
  destruct (negb _ && _).
  2: { destruct (file_data !! p) as [d|] eqn:Hp; [apply Hkeep|]; reflexivity. }
  destruct (calculate_hash w (src_path event)) as [new_hash|e].
  2: { destruct (file_data !! p) as [d|] eqn:Hp; [apply Hkeep|]; reflexivity. }
  destruct (file_data !! src_path event) as [d0|] eqn:Hd0.
  2: { destruct (file_data !! p) as [d|] eqn:Hp; [apply Hkeep|]; reflexivity. }
  case_bool_decide as Hne.
  2: { destruct (file_data !! p) as [d|] eqn:Hp; [apply Hkeep|]; reflexivity. }
  destruct (decide (p = src_path event)) as [-> | Hp].
  - rewrite Hd0, lookup_insert_eq.
    eexists. split; [reflexivity|]. cbn [modification history]. split.
    + apply prefix_app_r. reflexivity.
    + rewrite length_app. cbn [length]. lia.
  - rewrite lookup_insert_ne by congruence.
    destruct (file_data !! p) as [d|] eqn:Hpd; [apply Hkeep|]; reflexivity.
Qed.

(* ===================================================================== *)
(** * More invariants of the tracking store                               *)
(* ===================================================================== *)

(** As [Preservation], for properties that also look at the path and at
    the status a fresh entry is given. *)
Section PathPreservation.
Variable P : string -> TrackedFile -> Prop.
Hypothesis P_seeded :
  forall p t u h, is_valid_file p = true -> P p (fresh t u h unchanged).
Hypothesis P_created :
  forall p t u h, is_valid_file p = true -> P p (fresh t u h created).
Hypothesis P_modified :
  forall p d t u h, P p d -> hash d <> h -> P p (modification d t u h).

Lemma on_created_keeps (w : Env) (event : Event) (file_data : gmap string TrackedFile) :
  map_Forall P file_data -> map_Forall P (on_created w event file_data).1.
Proof.
  intros Hinv. rewrite on_created_store_cases.
  destruct (negb _ && _) eqn:Hguard; [|exact Hinv].
  apply andb_true_iff in Hguard as [_ Hvalid].
  destruct (calculate_hash w (src_path event)); [|exact Hinv].
  apply map_Forall_insert_2; auto.
Qed.

Lemma on_modified_keeps (w : Env) (event : Event) (file_data : gmap string TrackedFile) :
  map_Forall P file_data -> map_Forall P (on_modified w event file_data).1.
Proof.
  intros Hinv. rewrite on_modified_store.
  destruct (negb _ && _); [|exact Hinv].
  destruct (calculate_hash w (src_path event)) as [new_hash|]; [|exact Hinv].
  destruct (file_data !! src_path event) as [d|] eqn:Hd; [|exact Hinv].
  case_bool_decide as Hne; [|exact Hinv].
  apply map_Forall_insert_2; [|exact Hinv].
  apply P_modified; [|exact Hne]. exact (Hinv _ _ Hd).
Qed.

Lemma scan_files_keeps (obs : string -> Env) (root : string) (files : list string)
    (file_data : gmap string TrackedFile) :
  map_Forall P file_data -> map_Forall P (scan_files obs root files file_data).1.
Proof.
  revert file_data. induction files as [|file files IH]; intros file_data Hinv.
  - exact Hinv.
  - cbn [scan_files]. cbv zeta.
    destruct (is_valid_file (OsPath.join root file)) eqn:Hvalid; [|apply IH, Hinv].
    destruct (calculate_hash _ _); [|exact Hinv].
    apply IH, map_Forall_insert_2; auto.
Qed.

Lemma scan_initial_files_keeps (obs : string -> Env) (walk : list (string * list string))
    (file_data : gmap string TrackedFile) :
  map_Forall P file_data -> map_Forall P (scan_initial_files obs walk file_data).1.
Proof.
  revert file_data. induction walk as [|[root files] walk IH]; intros file_data Hinv.
  - exact Hinv.
  - cbn [scan_initial_files].
    pose proof (scan_files_keeps obs root files file_data Hinv) as Hstep.
    destruct (scan_files obs root files file_data) as [file_data' [[]|e]].
    + apply IH, Hstep.
    + exact Hstep.
Qed.

Lemma foldl_apply_op_keeps (ops : list operation) (file_data : gmap string TrackedFile) :
  map_Forall P file_data -> map_Forall P (foldl apply_op file_data ops).
Proof.
  revert file_data. induction ops as [|op ops IH]; intros file_data Hinv.
  - exact Hinv.
  - cbn [foldl]. apply IH. destruct op; cbn [apply_op].
    + apply scan_initial_files_keeps, Hinv.
    + apply on_created_keeps, Hinv.
    + apply on_modified_keeps, Hinv.
Qed.

Lemma run_keeps (ops : list operation) (p : string) (d : TrackedFile) :
  run ops !! p = Some d -> P p d.
Proof.
  intros Hd.
  assert (Hempty : map_Forall P (∅ : gmap string TrackedFile)) by apply map_Forall_empty.
  exact (foldl_apply_op_keeps ops ∅ Hempty p d Hd).
Qed.

End PathPreservation.

(** X7. Every path the engine ever tracks satisfies the path filter: hidden
    files and files with an ignored extension never enter the store. *)
Theorem tracked_paths_trackable (ops : list operation) (p : string) (d : TrackedFile) :
  run ops !! p = Some d -> is_valid_file p = true.
Proof.
  apply (run_keeps (fun p _ => is_valid_file p = true)); auto.
Qed.

Lemma tracked_paths_trackable_witness : is_valid_file "./a.txt" = true.
Proof.
  apply (tracked_paths_trackable seed_then_modify "./a.txt"
           (modification hello_seed "2024-01-01 00:00:05" "alice"
              (Some "b94d27b9934d3e08a52e52d7da7dabfac484efe37a5380ee9088f7ace2efcde9"%string))).
  apply seed_then_modify_lookup.
Defined.

Lemma last_two {A : Type} (l : list A) (x y : A) : last (l ++ [x; y]) = Some y.
Proof.
  change (l ++ [x; y]) with (l ++ [x] ++ [y]). rewrite app_assoc. apply last_snoc.
Qed.

(** X8. In every store the engine reaches, the last history entry of a tracked
    file repeats all four live fields: timestamp, hash, user and status. *)
Theorem last_entry_is_live_state (ops : list operation) (p : string) (d : TrackedFile) :
  run ops !! p = Some d ->
  last (history d) =
    Some {| entry_timestamp := timestamp d; entry_hash := hash d;
            entry_user := user d; entry_status := status d |}.
Proof.
  apply (run_inv (fun d => last (history d) = Some (live_entry d))).
  - reflexivity.
  - intros d0 t u h _ _. unfold modification. cbn [history]. apply last_two.
Qed.

Lemma last_entry_is_live_state_witness :
  last (history (modification hello_seed "2024-01-01 00:00:05" "alice"
          (Some "b94d27b9934d3e08a52e52d7da7dabfac484efe37a5380ee9088f7ace2efcde9"%string)))
  = Some {| entry_timestamp := "2024-01-01 00:00:05";
            entry_hash :=
              Some "b94d27b9934d3e08a52e52d7da7dabfac484efe37a5380ee9088f7ace2efcde9"%string;
            entry_user := "alice"; entry_status := modified |}.
Proof.
  apply (last_entry_is_live_state seed_then_modify "./a.txt").
  apply seed_then_modify_lookup.
Defined.

(** X9. In every store the engine reaches, a history is a seed or creation
    entry followed by pairs of ["modified"] entries; the first of each pair
    repeats the timestamp, hash and user of the entry before it, and the
    second has a different hash. *)
Theorem history_is_bracketed (ops : list operation) (p : string) (d : TrackedFile) :
  run ops !! p = Some d -> bracketed (history d).
Proof.
  intros Hd.
  enough (H : last (history d) = Some (live_entry d) /\ bracketed (history d))
    by apply H.
  revert Hd.
  apply (run_keeps (fun _ d => last (history d) = Some (live_entry d)
                               /\ bracketed (history d))).
  - intros _ t u h _. split; [reflexivity|]. apply bracketed_first. left. reflexivity.
  - intros _ t u h _. split; [reflexivity|]. apply bracketed_first. right. reflexivity.
  - intros _ d0 t u h [Hlast Hshape] Hne. split.
    + unfold modification. cbn [history]. apply last_two.
    + unfold modification. cbn [history].
      apply (bracketed_pair (history d0) (live_entry d0)); auto.
Qed.

Lemma history_is_bracketed_witness :
  bracketed (history (modification hello_seed "2024-01-01 00:00:05" "alice"
      (Some "b94d27b9934d3e08a52e52d7da7dabfac484efe37a5380ee9088f7ace2efcde9"%string))).
Proof.
  apply (history_is_bracketed seed_then_modify "./a.txt").
  apply seed_then_modify_lookup.
Defined.

(** X10. In every store the engine reaches, no entry has status ["deleted"]; an
    entry has status ["modified"] exactly when its history holds more than
    one entry, and otherwise its history holds exactly one. *)
Theorem status_never_deleted (ops : list operation) (p : string) (d : TrackedFile) :
  run ops !! p = Some d ->
  status d <> deleted /\
  (status d = modified <-> 1 < length (history d)) /\
  (status d <> modified -> length (history d) = 1).
Proof.
  intros Hd.
  assert (Hfit : status_fits_history d).
  { revert Hd. apply (run_keeps (fun _ d => status_fits_history d)).
    - reflexivity.
    - reflexivity.
    - intros _ d0 t u h Hd0 _. unfold status_fits_history, modification.
      cbn [status history]. rewrite length_app. cbn [length]. lia. }
  unfold status_fits_history in Hfit.
  destruct (status d); repeat split; try congruence; try lia; try contradiction.
Qed.

Lemma status_never_deleted_witness :
  status hello_seed <> deleted /\
  (status hello_seed = modified <-> 1 < length (history hello_seed)) /\
  (status hello_seed <> modified -> length (history hello_seed) = 1).
Proof.
  apply (status_never_deleted [Seed (fun _ => at_time "2024-01-01 00:00:00"
                                              [("./a.txt", text "hello")])
                                    [(".", ["a.txt"])]] "./a.txt").
  apply seeded_store_lookup.
Defined.

Lemma scan_files_keeps_path (obs : string -> Env) (root : string) (files : list string)
    (file_data : gmap string TrackedFile) (p : string) :
  is_Some (file_data !! p) -> is_Some ((scan_files obs root files file_data).1 !! p).
Proof.
  revert file_data. induction files as [|file files IH]; intros file_data Hp.
  - exact Hp.
  - cbn [scan_files]. cbv zeta.
    destruct (is_valid_file (OsPath.join root file)); [|apply IH, Hp].
    destruct (calculate_hash _ _); [|exact Hp].
    apply IH. rewrite lookup_insert_is_Some. destruct (decide (OsPath.join root file = p)); auto.
Qed.

Lemma apply_op_keeps_path (op : operation) (file_data : gmap string TrackedFile)
    (p : string) :
  is_Some (file_data !! p) -> is_Some (apply_op file_data op !! p).
Proof.
  intros Hp. destruct op as [obs walk | w event | w event]; cbn [apply_op].
  - revert file_data Hp. induction walk as [|[root files] walk IH]; intros file_data Hp.
    + exact Hp.
    + cbn [scan_initial_files].
      pose proof (scan_files_keeps_path obs root files file_data p Hp) as Hstep.
      destruct (scan_files obs root files file_data) as [file_data' [[]|e]].
      * apply IH, Hstep.
      * exact Hstep.
  - rewrite on_created_store_cases.
    destruct (negb _ && _); [|exact Hp].
    destruct (calculate_hash w (src_path event)); [|exact Hp].
    rewrite lookup_insert_is_Some. destruct (decide (src_path event = p)); auto.
  - pose proof (on_modified_append_only w event file_data p) as Hmod.
    destruct Hp as [d Hd]. rewrite Hd in Hmod. destruct Hmod as (d' & -> & _). eauto.
Qed.

(** X11. No operation ever removes a path from the store: once tracked, a file
    stays tracked through whatever seeds and notifications follow (there is
    no handling of deletions). *)
Theorem tracked_paths_persist (ops ops' : list operation) (p : string) :
  is_Some (run ops !! p) -> is_Some (run (ops ++ ops') !! p).
Proof.
  unfold run. rewrite foldl_app. generalize (foldl apply_op ∅ ops) as file_data.
  induction ops' as [|op ops' IH]; intros file_data Hp.
  - exact Hp.
  - cbn [foldl]. apply IH, apply_op_keeps_path, Hp.
Qed.

(** [a.txt] is seeded, then vanishes: it is still in the store. *)
Lemma tracked_paths_persist_witness :
  is_Some (run ([Seed (fun _ => at_time "2024-01-01 00:00:00" [("./a.txt", text "hello")])
                      [(".", ["a.txt"])]]
                ++ [ModifyNotification vanished (file_event "./a.txt")])
           !! "./a.txt"%string).
Proof.
  apply (tracked_paths_persist
           [Seed (fun _ => at_time "2024-01-01 00:00:00" [("./a.txt", text "hello")])
                 [(".", ["a.txt"])]]
           [ModifyNotification vanished (file_event "./a.txt")] "./a.txt").
  exists hello_seed. apply seeded_store_lookup.
Defined.

(* ===================================================================== *)
(** * When drawing the table raises                                       *)
(* ===================================================================== *)

Lemma format_display_true (file_data : gmap string TrackedFile) :
  existsb
    (fun kv : string * TrackedFile =>
       existsb (fun entry => bool_decide (entry_hash entry = None)) (history kv.2))
    (map_to_list file_data) = true
  <-> has_null_hash file_data.
Proof.
  rewrite existsb_exists. unfold has_null_hash. split.
  - intros ([p d] & Hin & Hex). apply existsb_exists in Hex as (e & He & Hnull).
    exists p, d, e. split; [|split].
    + apply elem_of_map_to_list, list_elem_of_In, Hin.
    + apply list_elem_of_In, He.
    + rewrite bool_decide_eq_true in Hnull. exact Hnull.
  - intros (p & d & e & Hd & He & Hnull). exists (p, d). split.
    + apply list_elem_of_In, elem_of_map_to_list, Hd.
    + apply existsb_exists. exists e. split.
      * apply list_elem_of_In, He.
      * rewrite bool_decide_eq_true. exact Hnull.
Qed.

(** [format_display] raises exactly when the store holds a null hash. *)
Lemma format_display_raises_iff (file_data : gmap string TrackedFile) :
  (format_display file_data = Raise TypeError <-> has_null_hash file_data) /\
  (format_display file_data = Return tt <-> ~ has_null_hash file_data).
Proof.
  rewrite <- format_display_true. unfold format_display.
  destruct (existsb _ _); split; split; congruence.
Qed.

Lemma on_modified_result (w : Env) (event : Event) (file_data : gmap string TrackedFile) :
  is_directory event = false ->
  is_valid_file (src_path event) = true ->
  (on_modified w event file_data).2 =
  match calculate_hash w (src_path event) with
  | Return _ => format_display (on_modified w event file_data).1
  | Raise e => Raise e
  end.
Proof.
  intros Hdir Hvalid. unfold on_modified. rewrite Hdir, Hvalid. cbn [negb andb].
  destruct (calculate_hash w (src_path event)); reflexivity.
Qed.

Lemma on_modified_keeps_null_hash (w : Env) (event : Event)
    (file_data : gmap string TrackedFile) :
  has_null_hash file_data -> has_null_hash (on_modified w event file_data).1.
Proof.
  intros (p & d & e & Hd & He & Hnull).
  pose proof (on_modified_append_only w event file_data p) as Hmod.
  rewrite Hd in Hmod. destruct Hmod as (d' & Hd' & [k Hk] & _).
  exists p, d', e. split; [exact Hd'|]. split; [|exact Hnull].
  rewrite Hk. apply elem_of_app. left. exact He.
Qed.

Lemma after_modifications_keeps_null_hash (notifications : list (Env * Event))
    (file_data : gmap string TrackedFile) :
  has_null_hash file_data -> has_null_hash (after_modifications file_data notifications).
Proof.
  unfold after_modifications. revert file_data.
  induction notifications as [|n notifications IH]; intros file_data Hnull.
  - exact Hnull.
  - cbn [foldl]. apply IH, on_modified_keeps_null_hash, Hnull.
Qed.

(** X13. Once the store is such that drawing the table raises, it stays so
    for as long as only modify notifications follow: after any series of
    them, one more modify notification for a trackable file ends in an
    exception, that of the calculator if it raises, the [TypeError] of the
    table otherwise. *)
Theorem display_failure_persists (notifications : list (Env * Event)) (w : Env)
    (event : Event) (file_data : gmap string TrackedFile) :
  format_display file_data = Raise TypeError ->
  is_directory event = false ->
  is_valid_file (src_path event) = true ->
  (on_modified w event (after_modifications file_data notifications)).2 =
  match calculate_hash w (src_path event) with
  | Return _ => Raise TypeError
  | Raise e => Raise e
  end.
Proof.
  intros Hraise Hdir Hvalid. rewrite on_modified_result by assumption.
  destruct (calculate_hash w (src_path event)); [|reflexivity].
  apply format_display_raises_iff, on_modified_keeps_null_hash.
  apply after_modifications_keeps_null_hash.
  apply format_display_raises_iff, Hraise.
Qed.

(** After [a.txt] vanished, it comes back and is written to: the third
    notification after the loss still raises. *)
Lemma display_failure_persists_witness :
  (on_modified untouched_later (file_event "./a.txt")
     (after_modifications
        (on_modified vanished (file_event "./a.txt") seeded_store).1
        [ (untouched, file_event "./a.txt");
          (after_append, file_event "./a.txt") ])).2
  = Raise TypeError.
Proof.
  apply (display_failure_persists
           [ (untouched, file_event "./a.txt"); (after_append, file_event "./a.txt") ]
           untouched_later (file_event "./a.txt")
           (on_modified vanished (file_event "./a.txt") seeded_store).1).
  - vm_compute. reflexivity.
  - reflexivity.
  - reflexivity.
Defined.

(** C10. The store does record a vanished file as the claim says: under a
    tracked path with a stored hash, a null fingerprint makes the status
    ["modified"], the stored hash [None], and appends two ["modified"]
    entries, the last with hash [None]. But the handler then draws the
    table, which raises a [TypeError] on that very entry: the vanished file
    does reach the caller as an error. *)
Theorem on_modified_vanished_raises (w : Env) (event : Event)
    (file_data : gmap string TrackedFile) (d : TrackedFile) :
  is_directory event = false ->
  is_valid_file (src_path event) = true ->
  file_data !! src_path event = Some d ->
  hash d <> None ->
  calculate_hash w (src_path event) = Return None ->
  (exists (d' : TrackedFile) (e1 e2 : HistoryEntry),
     (on_modified w event file_data).1 !! src_path event = Some d' /\
     status d' = modified /\
     hash d' = None /\
     history d' = history d ++ [e1; e2] /\
     entry_hash e1 = hash d /\
     entry_hash e2 = None /\
     entry_status e1 = modified /\
     entry_status e2 = modified) /\
  (on_modified w event file_data).2 = Raise TypeError.
Proof.
  intros Hdir Hvalid Hd Hsome Hcalc.
  assert (Hlook : (on_modified w event file_data).1 !! src_path event
                  = Some (modification d (now w) (getuser w) None)).
  { rewrite (on_modified_changed w event file_data d None) by assumption.
    apply lookup_insert_eq. }
  split.
  - eexists _, _, _. split; [exact Hlook|]. repeat split.
  - rewrite on_modified_result, Hcalc by assumption.
    apply format_display_raises_iff.
    eexists _, _, _. split; [exact Hlook|]. split.
    + cbn [modification history]. apply elem_of_app. right.
      apply elem_of_cons. right. apply list_elem_of_here.
    + reflexivity.
Qed.

(** [a.txt], seeded with content ["hello"], is deleted and a modify
    notification for it arrives. *)
Lemma on_modified_vanished_raises_witness :
  (exists d' : TrackedFile,
     (on_modified vanished (file_event "./a.txt") seeded_store).1 !! "./a.txt"%string
       = Some d' /\
     status d' = modified /\ hash d' = None /\ length (history d') = 3) /\
  (on_modified vanished (file_event "./a.txt") seeded_store).2 = Raise TypeError.
Proof.
  destruct (on_modified_vanished_raises vanished (file_event "./a.txt") seeded_store
              hello_seed)
    as [(d' & e1 & e2 & Hlook & Hstatus & Hhash & Hhist & _) Hraise].
  - reflexivity.
  - reflexivity.
  - vm_compute. reflexivity.
  - discriminate.
  - reflexivity.
  - split; [|exact Hraise].
    exists d'. rewrite Hhist. repeat split; assumption.
Defined.

(* ===================================================================== *)
(** * The initial scan and start-up                                       *)
(* ===================================================================== *)

Lemma scan_paths_app (obs : string -> Env) (l1 l2 : list string)
    (file_data : gmap string TrackedFile) :
  scan_paths obs (l1 ++ l2) file_data =
  match scan_paths obs l1 file_data with
  | (file_data', Return _) => scan_paths obs l2 file_data'
  | raised => raised
  end.
Proof.
  revert file_data. induction l1 as [|p l1 IH]; intros file_data; cbn [scan_paths app].
  - reflexivity.
  - destruct (is_valid_file p); [|apply IH].
    destruct (calculate_hash (obs p) p); [apply IH | reflexivity].
Qed.

Lemma scan_files_paths (obs : string -> Env) (root : string) (files : list string)
    (file_data : gmap string TrackedFile) :
  scan_files obs root files file_data
  = scan_paths obs (map (OsPath.join root) files) file_data.
Proof.
  revert file_data. induction files as [|file files IH]; intros file_data.
  - reflexivity.
  - cbn [scan_files map scan_paths]. cbv zeta.
    destruct (is_valid_file (OsPath.join root file)); [|apply IH].
    destruct (calculate_hash _ _); [apply IH | reflexivity].
Qed.

Lemma scan_initial_files_paths (obs : string -> Env) (walk : list (string * list string))
    (file_data : gmap string TrackedFile) :
  scan_initial_files obs walk file_data = scan_paths obs (walk_paths walk) file_data.
Proof.
  revert file_data. induction walk as [|[root files] walk IH]; intros file_data.
  - reflexivity.
  - cbn [scan_initial_files walk_paths flat_map fst snd].
    rewrite scan_paths_app, <- scan_files_paths.
    destruct (scan_files obs root files file_data) as [file_data' [[]|e]].
    + apply IH.
    + reflexivity.
Qed.

Lemma scan_paths_returns (obs : string -> Env) (paths : list string)
    (file_data : gmap string TrackedFile) :
  (scan_paths obs paths file_data).2 = Return tt <->
  (forall p, p ∈ paths -> is_valid_file p = true ->
             exists h, calculate_hash (obs p) p = Return h).
Proof.
  revert file_data. induction paths as [|q paths IH]; intros file_data; cbn [scan_paths].
  - split; [|reflexivity]. intros _ p Hp. inversion Hp.
  - destruct (is_valid_file q) eqn:Hq.
    + destruct (calculate_hash (obs q) q) as [h|e] eqn:Hcalc.
      * rewrite IH. split.
        -- intros Hall p Hp Hvalid. apply elem_of_cons in Hp as [-> | Hp]; eauto.
        -- intros Hall p Hp. apply Hall. apply elem_of_cons. auto.
      * split; [discriminate|]. intros Hall.
        destruct (Hall q) as [h Hh]; [apply elem_of_cons; auto | exact Hq |].
        congruence.
    + rewrite IH. split.
      * intros Hall p Hp Hvalid. apply elem_of_cons in Hp as [-> | Hp]; [congruence|eauto].
      * intros Hall p Hp. apply Hall. apply elem_of_cons. auto.
Qed.

Lemma scan_paths_outside (obs : string -> Env) (paths : list string)
    (file_data : gmap string TrackedFile) (p : string) :
  ~ (p ∈ paths /\ is_valid_file p = true) ->
  (scan_paths obs paths file_data).1 !! p = file_data !! p.
Proof.
  revert file_data. induction paths as [|q paths IH]; intros file_data Hout;
    cbn [scan_paths].
  - reflexivity.
  - assert (Hout' : ~ (p ∈ paths /\ is_valid_file p = true)).
    { intros [Hp Hv]. apply Hout. split; [apply elem_of_cons; auto | exact Hv]. }
    destruct (is_valid_file q) eqn:Hq; [|apply IH, Hout'].
    destruct (calculate_hash (obs q) q); [|reflexivity].
    rewrite IH by exact Hout'. apply lookup_insert_ne.
    intros ->. apply Hout. split; [apply elem_of_cons; auto | exact Hq].
Qed.

Lemma scan_paths_seeds (obs : string -> Env) (paths : list string)
    (file_data file_data' : gmap string TrackedFile) (p : string) :
  scan_paths obs paths file_data = (file_data', Return tt) ->
  p ∈ paths ->
  is_valid_file p = true ->
  exists h,
    calculate_hash (obs p) p = Return h /\
    file_data' !! p = Some (fresh (now (obs p)) (getuser (obs p)) h unchanged).
Proof.
  revert file_data. induction paths as [|q paths IH]; intros file_data Hscan Hp Hvalid.
  - inversion Hp.
  - cbn [scan_paths] in Hscan.
    destruct (decide (p ∈ paths)) as [Hin | Hnotin].
    + destruct (is_valid_file q); [|eauto].
      destruct (calculate_hash (obs q) q); [eauto | discriminate].
    + apply elem_of_cons in Hp as [-> | Hp]; [|contradiction].
      rewrite Hvalid in Hscan.
      destruct (calculate_hash (obs q) q) as [h|e]; [|discriminate].
      exists h. split; [reflexivity|].
      replace file_data' with (scan_paths obs paths
        (<[q := fresh (now (obs q)) (getuser (obs q)) h unchanged]> file_data)).1
        by (rewrite Hscan; reflexivity).
      rewrite scan_paths_outside by tauto. apply lookup_insert_eq.
Qed.

(** X15. The initial scan returns normally exactly when fingerprinting raises
    for none of the trackable paths of the walk: one unreadable file aborts
    the scan. *)
Theorem scan_completes_iff (obs : string -> Env) (walk : list (string * list string))
    (file_data : gmap string TrackedFile) :
  (scan_initial_files obs walk file_data).2 = Return tt <->
  (forall p, p ∈ walk_paths walk -> is_valid_file p = true ->
             exists h, calculate_hash (obs p) p = Return h).
Proof. rewrite scan_initial_files_paths. apply scan_paths_returns. Qed.

(** X16. After a scan that returns normally, every trackable path of the walk
    holds the entry of a seed: status ["unchanged"], the fingerprint,
    timestamp and user observed for that path, and a one-entry history. *)
Theorem scan_seeds_every_trackable_path (obs : string -> Env)
    (walk : list (string * list string))
    (file_data file_data' : gmap string TrackedFile) (p : string) :
  scan_initial_files obs walk file_data = (file_data', Return tt) ->
  p ∈ walk_paths walk ->
  is_valid_file p = true ->
  exists h,
    calculate_hash (obs p) p = Return h /\
    file_data' !! p =
      Some {| timestamp := now (obs p); user := getuser (obs p); hash := h;
              status := unchanged;
              history := [ {| entry_timestamp := now (obs p); entry_hash := h;
                              entry_user := getuser (obs p);
                              entry_status := unchanged |} ] |}.
Proof. rewrite scan_initial_files_paths. apply scan_paths_seeds. Qed.

Lemma small_scan :
  exists file_data',
    scan_initial_files small_tree small_walk ∅ = (file_data', Return tt).
Proof. eexists. vm_compute. reflexivity. Qed.

Lemma scan_seeds_every_trackable_path_witness :
  exists h,
    calculate_hash (small_tree "./.git/config") "./.git/config" = Return h /\
    (scan_initial_files small_tree small_walk ∅).1 !! "./.git/config"%string
    = Some (fresh "2024-01-01 00:00:00" "alice" h unchanged).
Proof.
  apply (scan_seeds_every_trackable_path small_tree small_walk ∅
           (scan_initial_files small_tree small_walk ∅).1 "./.git/config").
  - vm_compute. reflexivity.
  - vm_compute. do 3 right. left.
  - reflexivity.
Defined.

(** X17. The scan, whether it completes or raises, leaves alone every path
    that is not a trackable path of the walk: in particular it never stores
    a path the filter rejects. *)
Theorem scan_touches_only_walk (obs : string -> Env)
    (walk : list (string * list string))
    (file_data : gmap string TrackedFile) (p : string) :
  ~ (p ∈ walk_paths walk /\ is_valid_file p = true) ->
  (scan_initial_files obs walk file_data).1 !! p = file_data !! p.
Proof. rewrite scan_initial_files_paths. apply scan_paths_outside. Qed.

Lemma scan_touches_only_walk_witness :
  (scan_initial_files small_tree small_walk ∅).1 !! "./.env"%string = None /\
  (scan_initial_files small_tree small_walk ∅).1 !! "./b.tmp"%string = None.
Proof.
  split.
  - rewrite (scan_touches_only_walk small_tree small_walk ∅ "./.env").
    + apply lookup_empty.
    + intros [_ Hvalid]. discriminate Hvalid.
  - rewrite (scan_touches_only_walk small_tree small_walk ∅ "./b.tmp").
    + apply lookup_empty.
    + intros [_ Hvalid]. discriminate Hvalid.
Defined.




(** Start-up on a readable tree, on one with a file that cannot be opened,
    and on one with a dangling link. *)
Example start_up_readable :
  (start_monitoring small_tree small_walk ∅).2 = Return tt.
Proof. vm_compute. reflexivity. Qed.

Example start_up_locked :
  (start_monitoring locked_tree small_walk ∅).2 = Raise PermissionError.
Proof. vm_compute. reflexivity. Qed.

Example start_up_dangling :
  (start_monitoring dangling_tree small_walk ∅).2 = Raise TypeError.
Proof. vm_compute. reflexivity. Qed.

(* ===================================================================== *)
(** * The filter looks at the file name only                              *)
(* ===================================================================== *)

Section JoinFacts.
Local Open Scope string_scope.

Lemma append_assoc_s (a b c : string) : (a ++ b) ++ c = a ++ (b ++ c).
Proof.
  induction a as [|x a IH].
  - reflexivity.
  - change (String x ((a ++ b) ++ c) = String x (a ++ (b ++ c))). rewrite IH. reflexivity.
Qed.

Lemma not_sep_free_split (d b : string) : ~ sep_free (d ++ String OsPath.sep b).
Proof.
  induction d as [|x d IH].
  - intros [Hsep _]. apply Hsep. reflexivity.
  - intros [_ Hrest]. apply IH, Hrest.
Qed.

Lemma endswith_split (d b suf : string) :
  sep_free suf ->
  OsPath.endswith (d ++ String OsPath.sep b) suf = OsPath.endswith b suf.
Proof.
  intros Hsuf.
  assert (Hneq : forall s, ~ sep_free s -> String.eqb s suf = false).
  { intros s Hs. apply String.eqb_neq. intros ->. exact (Hs Hsuf). }
  induction d as [|x d IH].
  - change ("" ++ String OsPath.sep b) with (String OsPath.sep b).
    cbn [OsPath.endswith]. rewrite Hneq; [reflexivity|].
    exact (not_sep_free_split "" b).
  - change (String x d ++ String OsPath.sep b) with (String x (d ++ String OsPath.sep b)).
    cbn [OsPath.endswith]. rewrite IH, Hneq; [reflexivity|].
    exact (not_sep_free_split (String x d) b).
Qed.

Lemma is_valid_file_split (d b : string) :
  sep_free b -> is_valid_file (d ++ String OsPath.sep b) = is_valid_file b.
Proof.
  intros Hb. unfold is_valid_file, OsPath.basename. cbv zeta.
  rewrite (after_last_sep_split d b _ Hb), (after_last_sep_free b b Hb).
  f_equal. f_equal. unfold IGNORED_EXTENSIONS. cbn [existsb].
  rewrite !endswith_split; [reflexivity|..]; cbn; intuition discriminate.
Qed.

Lemma join_cases (root file : string) :
  OsPath.join root file = file \/
  exists d, OsPath.join root file = d ++ String OsPath.sep file.
Proof.
  unfold OsPath.join.
  destruct (OsPath.startswith file "/"); [auto|].
  destruct (String.eqb_spec root "") as [-> | Hroot]; cbn [orb]; [auto|].
  destruct (OsPath.endswith root "/") eqn:Hend; right.
  - apply endswith_spec in Hend as [pre ->]. exists pre. apply append_assoc_s.
  - exists root. reflexivity.
Qed.

End JoinFacts.

(** X19. For a file name of the walk (no separator in it), the filter decides
    on the joined path as it would on the file name alone: the directory
    part plays no role, so files inside hidden directories are tracked. *)
Theorem filter_ignores_directory (root file : string) :
  sep_free file ->
  is_valid_file (OsPath.join root file) = is_valid_file file.
Proof.
  intros Hfile. destruct (join_cases root file) as [-> | [d ->]].
  - reflexivity.
  - apply is_valid_file_split, Hfile.
Qed.

Lemma filter_ignores_directory_witness :
  is_valid_file (OsPath.join "./.git" "config") = is_valid_file "config" /\
  is_valid_file "./.git/config" = true.
Proof.
  split.
  - apply (filter_ignores_directory "./.git" "config"). cbn. intuition discriminate.
  - reflexivity.
Defined.

(* ===================================================================== *)
(** * The order of the table                                              *)
(* ===================================================================== *)

Section StringOrder.

Lemma ascii_compare_lt_trans (a b c : ascii) :
  Ascii.compare a b = Lt -> Ascii.compare b c = Lt -> Ascii.compare a c = Lt.
Proof.
  unfold Ascii.compare. rewrite !N.compare_lt_iff. apply N.lt_trans.
Qed.

Lemma ascii_compare_refl (a : ascii) : Ascii.compare a a = Eq.
Proof. apply N.compare_refl. Qed.

Lemma string_compare_lt_trans (s1 s2 s3 : string) :
  String.compare s1 s2 = Lt -> String.compare s2 s3 = Lt -> String.compare s1 s3 = Lt.
Proof.
  revert s2 s3. induction s1 as [|a s1 IH]; intros [|b s2] [|c s3];
    cbn [String.compare]; try congruence.
  destruct (Ascii.compare a b) eqn:Hab; try discriminate;
    destruct (Ascii.compare b c) eqn:Hbc; try discriminate.
  - apply Ascii.compare_eq_iff in Hab, Hbc. subst.
    rewrite ascii_compare_refl. apply IH.
  - apply Ascii.compare_eq_iff in Hab. subst. rewrite Hbc. auto.
  - apply Ascii.compare_eq_iff in Hbc. subst. rewrite Hab. auto.
  - rewrite (ascii_compare_lt_trans _ _ _ Hab Hbc). auto.
Qed.

Lemma string_compare_refl (s : string) : String.compare s s = Eq.
Proof.
  induction s as [|a s IH]; cbn [String.compare]; [reflexivity|].
  rewrite ascii_compare_refl. exact IH.
Qed.

Lemma string_leb_cases (s1 s2 : string) :
  String.leb s1 s2 = true <-> String.compare s1 s2 = Lt \/ s1 = s2.
Proof.
  unfold String.leb. split.
  - destruct (String.compare s1 s2) eqn:Hc; try discriminate; auto.
    right. apply String.compare_eq_iff, Hc.
  - intros [-> | ->]; [reflexivity|]. rewrite string_compare_refl. reflexivity.
Qed.

Lemma string_leb_trans (s1 s2 s3 : string) :
  String.leb s1 s2 = true -> String.leb s2 s3 = true -> String.leb s1 s3 = true.
Proof.
  rewrite !string_leb_cases. intros [H12 | ->] [H23 | ->]; auto.
  left. eapply string_compare_lt_trans; eassumption.
Qed.

Lemma string_ltb_leb (s1 s2 : string) :
  String.ltb s1 s2 = true -> String.leb s1 s2 = true.
Proof. unfold String.ltb, String.leb. destruct (String.compare s1 s2); congruence. Qed.

Lemma string_ltb_false (s1 s2 : string) :
  String.ltb s1 s2 = false -> String.leb s2 s1 = true.
Proof.
  unfold String.ltb, String.leb. rewrite (String.compare_antisym s2 s1).
  destruct (String.compare s1 s2); cbn; congruence.
Qed.

Lemma string_ltb_irrefl (s : string) : String.ltb s s = false.
Proof. unfold String.ltb. rewrite string_compare_refl. reflexivity. Qed.

End StringOrder.

Lemma insert_recent_perm (x : string * TrackedFile) (l : list (string * TrackedFile)) :
  insert_recent x l ≡ₚ x :: l.
Proof.
  induction l as [|y l IH]; cbn [insert_recent]; [reflexivity|].
  destruct (String.ltb _ _); [|reflexivity].
  rewrite IH. apply Permutation_swap.
Qed.

Lemma insert_recent_sorted (x : string * TrackedFile) (l : list (string * TrackedFile)) :
  StronglySorted not_earlier l -> StronglySorted not_earlier (insert_recent x l).
Proof.
  induction l as [|y l IH]; intros Hl; cbn [insert_recent].
  - repeat constructor.
  - apply StronglySorted_inv in Hl as [Hl Hy].
    destruct (String.ltb (timestamp x.2) (timestamp y.2)) eqn:Hlt.
    + constructor; [apply IH, Hl|].
      rewrite insert_recent_perm. constructor; [|exact Hy].
      apply string_ltb_leb, Hlt.
    + assert (Hyx : not_earlier x y) by apply string_ltb_false, Hlt.
      constructor; [constructor; assumption|].
      constructor; [exact Hyx|].
      eapply Forall_impl; [exact Hy|]. intros z Hz. unfold not_earlier in *.
      eapply string_leb_trans; eassumption.
Qed.

Lemma insert_recent_filter (t : string) (x : string * TrackedFile)
    (l : list (string * TrackedFile)) :
  filter (fun kv => timestamp kv.2 = t) (insert_recent x l)
  = filter (fun kv => timestamp kv.2 = t) (x :: l).
Proof.
  induction l as [|y l IH]; cbn [insert_recent]; [reflexivity|].
  destruct (String.ltb (timestamp x.2) (timestamp y.2)) eqn:Hlt; [|reflexivity].
  rewrite (filter_cons _ y), IH, !(filter_cons _ x), (filter_cons _ y).
  destruct (decide (timestamp y.2 = t)) as [Hy|Hy];
    destruct (decide (timestamp x.2 = t)) as [Hx|Hx]; try reflexivity.
  rewrite Hx, Hy, string_ltb_irrefl in Hlt. discriminate.
Qed.

(** X20. The table lists every item once, latest timestamp first, and items
    with equal timestamps in the order the dictionary yields them. *)
Theorem sorted_files_ordered (items : list (string * TrackedFile)) :
  sorted_files items ≡ₚ items /\
  StronglySorted not_earlier (sorted_files items) /\
  (forall t : string,
     filter (fun kv => timestamp kv.2 = t) (sorted_files items)
     = filter (fun kv => timestamp kv.2 = t) items).
Proof.
  unfold sorted_files. induction items as [|x items (Hperm & Hsorted & Hstable)];
    cbn [foldr].
  - split; [reflexivity|]. split; [constructor|]. reflexivity.
  - split; [|split].
    + rewrite insert_recent_perm, Hperm. reflexivity.
    + apply insert_recent_sorted, Hsorted.
    + intros t. rewrite insert_recent_filter, !(filter_cons _ x), Hstable. reflexivity.
Qed.

Example sorted_files_four : fst <$> sorted_files four_items = ["b"; "d"; "a"; "c"]%string.
Proof. vm_compute. reflexivity. Qed.

(* ===================================================================== *)
(** * The shape of a fingerprint                                          *)
(* ===================================================================== *)

Section DigestShape.

Lemma be_bytes_length (n : nat) (x : Z) : length (SHA256.be_bytes n x) = n.
Proof. induction n as [|n IH]; cbn [SHA256.be_bytes length]; congruence. Qed.

Lemma compress_length (h : list Z) (block : list byte) :
  length h = 8 -> length (SHA256.compress h block) = 8.
Proof.
  intros Hh. unfold SHA256.compress. cbv zeta.
  rewrite List.length_map, List.length_combine, Hh. reflexivity.
Qed.

Lemma blocks_length (n : nat) (h : list Z) (bs : list byte) :
  length h = 8 -> length (SHA256.blocks n h bs) = 8.
Proof.
  revert h bs. induction n as [|n IH]; intros h bs Hh; cbn [SHA256.blocks].
  - exact Hh.
  - apply IH, compress_length, Hh.
Qed.

Lemma digest_length (msg : list byte) : length (SHA256.digest msg) = 32.
Proof.
  unfold SHA256.digest. cbv zeta.
  assert (Hflat : forall ws : list Z,
            length (flat_map (SHA256.be_bytes 4) ws) = 4 * length ws).
  { induction ws as [|x ws IH]; [reflexivity|].
    cbn [flat_map]. rewrite length_app, be_bytes_length, IH. cbn [length]. lia. }
  rewrite Hflat, blocks_length; reflexivity.
Qed.

Lemma hex_length (bs : list byte) : String.length (SHA256.hex bs) = 2 * length bs.
Proof.
  induction bs as [|b bs IH]; [reflexivity|].
  cbn [SHA256.hex String.length length]. rewrite IH. lia.
Qed.

Lemma hex_digits_of_byte (b : byte) :
  is_hex_char (SHA256.hex_digit (SHA256.byte_val b / 16)) = true /\
  is_hex_char (SHA256.hex_digit (SHA256.byte_val b mod 16)) = true.
Proof. destruct b; split; reflexivity. Qed.

Lemma hex_chars (bs : list byte) :
  Forall (fun c => is_hex_char c = true) (list_ascii_of_string (SHA256.hex bs)).
Proof.
  induction bs as [|b bs IH]; [constructor|].
  cbn [SHA256.hex list_ascii_of_string].
  destruct (hex_digits_of_byte b) as [Hhi Hlo]. repeat constructor; assumption.
Qed.

End DigestShape.

(** X21. A fingerprint that is not null is a string of 64 lower-case
    hexadecimal digits, whatever the size of the file. *)
Theorem fingerprint_is_hex_digest (w : Env) (p x : string) :
  calculate_hash w p = Return (Some x) ->
  String.length x = 64 /\
  Forall (fun c => is_hex_char c = true) (list_ascii_of_string x).
Proof.
  unfold calculate_hash. destruct (is_valid_file p); cbn [negb]; [|discriminate].
  destruct (open_rb w p) as [f|e]; [|destruct e; discriminate].
  intros [= <-]. unfold SHA256.hexdigest. split.
  - rewrite hex_length, digest_length. reflexivity.
  - apply hex_chars.
Qed.

Lemma fingerprint_is_hex_digest_witness :
  String.length "2cf24dba5fb0a30e26e83b2ac5b9e29e1b161e5c1fa7425e73043362938b9824" = 64 /\
  Forall (fun c => is_hex_char c = true)
    (list_ascii_of_string
       "2cf24dba5fb0a30e26e83b2ac5b9e29e1b161e5c1fa7425e73043362938b9824").
Proof.
  apply (fingerprint_is_hex_digest
           (at_time "2024-01-01 00:00:00" [("./a.txt", text "hello")]) "./a.txt").
  vm_compute. reflexivity.
Defined.

(* ===================================================================== *)
(** * Notifications that return normally                                  *)
(* ===================================================================== *)




